(** * Video subtitle assistant: task store, websocket handlers and SRT export

    A shallow embedding of the front-end logic of the repository:
    - the zustand task store ([addTask], [updateTask], [getTaskById]),
    - the socket.io event handlers of [WebSocketService],
    - the SRT export helpers ([formatSrtTime], [generateSrtContent]),
    - the two copies of [formatFileSize] and [formatDuration],
    - the listeners and the outgoing queue commands of the service,
    - the run/pause button and the filter of the task queue panel.

    JavaScript [number] values are modelled by the rationals they denote
    (finite binary64 values; NaN and the infinities are not modelled).
    Operations whose binary64 result is rounded ([/], [*], [-]) go through
    [round64], round-to-nearest-even on the binary64 grid; [%] and
    [Math.floor] are exact in binary64 and are modelled exactly. *)

From Stdlib Require Import ZArith QArith Qround Qabs Qpower Lia.
From Stdlib Require Import List Bool String Ascii.
From Stdlib Require Import Sorting.Sorted Permutation DecimalString.
Import ListNotations.

Local Open Scope string_scope.
Local Open Scope Z_scope.

(** ** JavaScript numbers *)

Module JsNumber.

Definition number := Q.

(** [2^e] for an integer exponent of either sign. *)
Definition Qpow2 (e : Z) : Q := (2 ^ e)%Q.

(** Binary exponent of a positive rational: the [e] with
    [2^e <= q < 2^(e+1)]. *)
Definition Qlog2 (q : Q) : Z :=
  let e0 := Z.log2 (Qnum q) - Z.log2 (Zpos (Qden q)) in
  if Qle_bool (Qpow2 e0) q then e0 else e0 - 1.

(** Round to the nearest integer, ties to even. *)
Definition rne (q : Q) : Z :=
  let f := Qfloor q in
  match Qcompare (q - inject_Z f) (1 # 2) with
  | Lt => f
  | Gt => f + 1
  | Eq => if Z.even f then f else f + 1
  end.

(** Exponent of the unit in the last place of the binary64 binade of
    [q]: 53 significant bits, subnormals below [2^-1022]. *)
Definition ulp_exp (q : Q) : Z :=
  Z.max (Qlog2 (Qabs q)) (-1022) - 52.

(** Round-to-nearest-even onto the binary64 grid (overflow to an
    infinity, above [2^1024], is outside the model). *)
Definition round64 (q : Q) : Q :=
  if Qeq_bool q 0 then 0%Q
  else (inject_Z (rne (q / Qpow2 (ulp_exp q))) * Qpow2 (ulp_exp q))%Q.

(** A rational is a finite binary64 value when it lies on the grid of its
    own binade and below the overflow threshold. *)
Definition is_double (q : Q) : Prop :=
  (exists M : Z, (q == inject_Z M * Qpow2 (ulp_exp q))%Q)
  /\ (Qabs q < Qpow2 1024)%Q.

Definition div64 (x y : number) : number := round64 (x / y).
Definition mul64 (x y : number) : number := round64 (x * y).
Definition sub64 (x y : number) : number := round64 (x - y).

(** Truncation toward zero. *)
Definition Qtrunc (q : Q) : Z :=
  if Qle_bool 0 q then Qfloor q else Qceiling q.

(** JavaScript [x % y]: the remainder has the sign of the dividend and
    is exact. *)
Definition fmod (x y : number) : number :=
  (x - y * inject_Z (Qtrunc (x / y)))%Q.

(** [Math.floor], returned as the integer it denotes. *)
Definition floor (x : number) : Z := Qfloor x.

End JsNumber.
Import JsNumber.


(** ** Data model ([types/index.ts]) *)

Inductive TaskStatus : Type :=
  | pending | processing | paused | completed | failed | cancelled.

Module TaskStage.
Inductive t : Type :=
  | idle | extracting_audio | vad_detecting | transcribing
  | generating_subtitle | completed | failed.
End TaskStage.

Module SubtitleEntry.
Record t : Type := mk {
  id : Z;
  startTime : number;
  endTime : number;
  text : string;
  translation : option string;
  confidence : option number;
  originalText : option string;
  detectedLang : option string;
  langMismatch : option bool
}.
End SubtitleEntry.

Module VideoTask.
Record t : Type := mk {
  id : string;
  filePath : string;
  fileName : string;
  fileSize : number;
  duration : option number;
  status : TaskStatus;
  progress : number;
  stage : TaskStage.t;
  stageDetail : string;
  error : option string;
  subtitles : option (list SubtitleEntry.t);
  createdAt : Z;
  updatedAt : Z;
  completedAt : option Z
}.
End VideoTask.

(** [Partial<VideoTask>]: every key may be absent ([None]).  For the keys
    that are optional in [VideoTask] a present key may carry [undefined]
    ([Some None]), which the spread copies over the old value. *)
Module Partial.
Record t : Type := mk {
  id : option string;
  filePath : option string;
  fileName : option string;
  fileSize : option number;
  duration : option (option number);
  status : option TaskStatus;
  progress : option number;
  stage : option TaskStage.t;
  stageDetail : option string;
  error : option (option string);
  subtitles : option (option (list SubtitleEntry.t));
  createdAt : option Z;
  updatedAt : option Z;
  completedAt : option (option Z)
}.

(** The empty object literal [{}]. *)
Definition empty : t :=
  mk None None None None None None None None None None None None None None.
End Partial.

(** A key of the right operand of a spread wins when it is present. *)
Definition override {A : Type} (upd : option A) (old : A) : A :=
  match upd with
  | Some v => v
  | None => old
  end.

(** [{ ...task, ...updates, updatedAt: Date.now() }] *)
Definition spread (task : VideoTask.t) (updates : Partial.t) (now : Z)
  : VideoTask.t :=
  {| VideoTask.id := override (Partial.id updates) (VideoTask.id task);
     VideoTask.filePath :=
       override (Partial.filePath updates) (VideoTask.filePath task);
     VideoTask.fileName :=
       override (Partial.fileName updates) (VideoTask.fileName task);
     VideoTask.fileSize :=
       override (Partial.fileSize updates) (VideoTask.fileSize task);
     VideoTask.duration :=
       override (Partial.duration updates) (VideoTask.duration task);
     VideoTask.status :=
       override (Partial.status updates) (VideoTask.status task);
     VideoTask.progress :=
       override (Partial.progress updates) (VideoTask.progress task);
     VideoTask.stage :=
       override (Partial.stage updates) (VideoTask.stage task);
     VideoTask.stageDetail :=
       override (Partial.stageDetail updates) (VideoTask.stageDetail task);
     VideoTask.error :=
       override (Partial.error updates) (VideoTask.error task);
     VideoTask.subtitles :=
       override (Partial.subtitles updates) (VideoTask.subtitles task);
     VideoTask.createdAt :=
       override (Partial.createdAt updates) (VideoTask.createdAt task);
     VideoTask.updatedAt := now;
     VideoTask.completedAt :=
       override (Partial.completedAt updates) (VideoTask.completedAt task) |}.

(** ** The task store (zustand [useStore]) *)

(** The slice of [AppState] the task operations read or write. *)
Record AppState : Type := mkState {
  tasks : list VideoTask.t;
  selectedTaskId : option string;
  isProcessing : bool
}.

Definition set_tasks (state : AppState) (ts : list VideoTask.t) : AppState :=
  {| tasks := ts;
     selectedTaskId := selectedTaskId state;
     isProcessing := isProcessing state |}.

(** [tasks: [...state.tasks, task]] *)
Definition addTask (task : VideoTask.t) (state : AppState) : AppState :=
  set_tasks state (tasks state ++ [task]).

(** [state.tasks.map(task => task.id === id ? {...} : task)];
    [now] is the value of [Date.now()]. *)
Definition updateTask (id : string) (updates : Partial.t) (now : Z)
    (state : AppState) : AppState :=
  set_tasks state
    (map (fun task =>
            if String.eqb (VideoTask.id task) id
            then spread task updates now
            else task)
         (tasks state)).

(** [tasks.find(task => task.id === id)] *)
Definition getTaskById (id : string) (state : AppState)
  : option VideoTask.t :=
  find (fun task => String.eqb (VideoTask.id task) id) (tasks state).

Definition setProcessing (processing : bool) (state : AppState) : AppState :=
  {| tasks := tasks state;
     selectedTaskId := selectedTaskId state;
     isProcessing := processing |}.

(** [['completed', 'failed', 'cancelled'].includes(status)]: the
    statuses [clearCompleted] treats as finished. *)
Definition is_terminal (s : TaskStatus) : bool :=
  match s with
  | completed | failed | cancelled => true
  | _ => false
  end.

(** [removeTask] *)
Definition removeTask (id : string) (state : AppState) : AppState :=
  {| tasks :=
       filter (fun task => negb (String.eqb (VideoTask.id task) id))
              (tasks state);
     selectedTaskId :=
       match selectedTaskId state with
       | Some sel => if String.eqb sel id then None else Some sel
       | None => None
       end;
     isProcessing := isProcessing state |}.

(** [clearCompleted] *)
Definition clearCompleted (state : AppState) : AppState :=
  set_tasks state
    (filter (fun task => negb (is_terminal (VideoTask.status task)))
            (tasks state)).

(** ** The websocket service ([WebSocketService]) *)

(** [Array.prototype.sort(compareFn)] is stable; on a comparator that is
    a consistent ordering its result is the stable sorted permutation,
    computed here by insertion: an element stays in front of the later
    elements unless the comparator returns a positive number. *)
Section ArraySort.
Context {A : Type} (compareFn : A -> A -> number).

Fixpoint sort_insert (a : A) (l : list A) : list A :=
  match l with
  | [] => [a]
  | b :: l' =>
      if Qle_bool (compareFn a b) 0 then a :: b :: l'
      else b :: sort_insert a l'
  end.

Definition sort (l : list A) : list A := fold_right sort_insert [] l.
End ArraySort.

(** Payload of [task_progress]. *)
Module ProgressUpdate.
Record t : Type := mk {
  taskId : string;
  stage : TaskStage.t;
  progress : number;
  detail : string;
  timestamp : Z;
  currentSegment : option Z;
  totalSegments : option Z
}.
End ProgressUpdate.

(** The [subtitle] object of a [subtitle_added] payload.  It is typed
    [any]: a time key is [Some] exactly when it holds a value whose
    [typeof] is ['number'], [text] is [None] when null or undefined.  The
    [id] is taken to be a number, as [SubtitleEntry] declares it. *)
Module RawSubtitle.
Record t : Type := mk {
  id : Z;
  startTime : option number;
  start : option number;
  endTime : option number;
  end_ : option number;
  text : option string;
  confidence : option number
}.
End RawSubtitle.

(** The events the socket delivers to [setupEventHandlers]. *)
Inductive SocketEvent : Type :=
  | task_progress (update : ProgressUpdate.t)
  | translation_progress (data : string)
  | translation_completed (data : string)
  | subtitle_added (taskId : string) (subtitle : option RawSubtitle.t)
  | task_completed (task : VideoTask.t)
  | task_failed (taskId : string) (error : string)
  | synthesis_progress (taskId : string) (progress : number)
      (detail : string) (timestamp : Z)
  | synthesis_completed (taskId : string) (outputPath : string)
      (timestamp : Z)
  | synthesis_failed (taskId : string) (error : string) (timestamp : Z)
  | task_cancelled (taskId : string)
  | all_tasks_completed.

(** [this.emit(event, data)]: the local event name handed to the
    listeners, with the payload it carries. *)
Definition Emitted : Type := (string * SocketEvent)%type.

(** [handleProgressUpdate] *)
Definition handleProgressUpdate (update : ProgressUpdate.t) (now : Z)
    (state : AppState) : AppState :=
  updateTask (ProgressUpdate.taskId update)
    {| Partial.id := None; Partial.filePath := None;
       Partial.fileName := None; Partial.fileSize := None;
       Partial.duration := None; Partial.status := None;
       Partial.progress := Some (ProgressUpdate.progress update);
       Partial.stage := Some (ProgressUpdate.stage update);
       Partial.stageDetail := Some (ProgressUpdate.detail update);
       Partial.error := None; Partial.subtitles := None;
       Partial.createdAt := None; Partial.updatedAt := None;
       Partial.completedAt := None |}
    now state.

(** [{ subtitles: newSubtitles }] *)
Definition subtitles_update (l : list SubtitleEntry.t) : Partial.t :=
  {| Partial.id := None; Partial.filePath := None;
     Partial.fileName := None; Partial.fileSize := None;
     Partial.duration := None; Partial.status := None;
     Partial.progress := None; Partial.stage := None;
     Partial.stageDetail := None; Partial.error := None;
     Partial.subtitles := Some (Some l);
     Partial.createdAt := None; Partial.updatedAt := None;
     Partial.completedAt := None |}.

(** [(a, b) => a.startTime - b.startTime] *)
Definition byStartTime (a b : SubtitleEntry.t) : number :=
  sub64 (SubtitleEntry.startTime a) (SubtitleEntry.startTime b).

(** [raw.startTime] when it is a number, [raw.start] otherwise; the
    result is [None] when the chosen value is not a number, which is the
    case the [typeof] guard returns on. *)
Definition number_or {A : Type} (first second : option A) : option A :=
  match first with
  | Some v => Some v
  | None => second
  end.

(** [task.subtitles || []] *)
Definition or_empty {A : Type} (l : option (list A)) : list A :=
  match l with
  | Some l' => l'
  | None => []
  end.

(** The [normalized] object literal, once both times are numbers. *)
Definition normalize (raw : RawSubtitle.t) (startTime endTime : number)
  : SubtitleEntry.t :=
  {| SubtitleEntry.id := RawSubtitle.id raw;
     SubtitleEntry.startTime := startTime;
     SubtitleEntry.endTime := endTime;
     SubtitleEntry.text :=
       match RawSubtitle.text raw with
       | Some s => s
       | None => ""
       end;
     SubtitleEntry.translation := None;
     SubtitleEntry.confidence := RawSubtitle.confidence raw;
     SubtitleEntry.originalText := None;
     SubtitleEntry.detectedLang := None;
     SubtitleEntry.langMismatch := None |}.

(** [handleSubtitleAdded].  A missing [data.subtitle] makes [raw] the
    empty object, whose times are undefined: the guard returns. *)
Definition handleSubtitleAdded (taskId : string)
    (subtitle : option RawSubtitle.t) (now : Z) (state : AppState)
  : AppState :=
  match getTaskById taskId state with
  | None => state
  | Some task =>
      let currentSubtitles := or_empty (VideoTask.subtitles task) in
      match subtitle with
      | None => state
      | Some raw =>
          match number_or (RawSubtitle.startTime raw) (RawSubtitle.start raw),
                number_or (RawSubtitle.endTime raw) (RawSubtitle.end_ raw)
          with
          | Some startTime, Some endTime =>
              let normalized := normalize raw startTime endTime in
              match find (fun s => Z.eqb (SubtitleEntry.id s)
                                         (SubtitleEntry.id normalized))
                         currentSubtitles with
              | Some _ => state
              | None =>
                  let newSubtitles :=
                    sort byStartTime (currentSubtitles ++ [normalized]) in
                  updateTask taskId (subtitles_update newSubtitles) now state
              end
          | _, _ => state
          end
      end
  end.

(** The object literals passed to [updateTask] by the other handlers. *)
Definition completed_update (subs : option (list SubtitleEntry.t))
    (now : Z) : Partial.t :=
  {| Partial.id := None; Partial.filePath := None;
     Partial.fileName := None; Partial.fileSize := None;
     Partial.duration := None;
     Partial.status := Some completed;
     Partial.progress := Some 100%Q;
     Partial.stage := Some TaskStage.completed;
     Partial.stageDetail := Some "处理完成";
     Partial.error := None;
     Partial.subtitles := Some subs;
     Partial.createdAt := None; Partial.updatedAt := None;
     Partial.completedAt := Some (Some now) |}.

Definition failed_update (detailPrefix error : string) : Partial.t :=
  {| Partial.id := None; Partial.filePath := None;
     Partial.fileName := None; Partial.fileSize := None;
     Partial.duration := None;
     Partial.status := Some failed;
     Partial.progress := None; Partial.stage := None;
     Partial.stageDetail := Some (detailPrefix ++ error);
     Partial.error := Some (Some error);
     Partial.subtitles := None;
     Partial.createdAt := None; Partial.updatedAt := None;
     Partial.completedAt := None |}.

Definition synthesis_progress_update (progress : number) (detail : string)
  : Partial.t :=
  {| Partial.id := None; Partial.filePath := None;
     Partial.fileName := None; Partial.fileSize := None;
     Partial.duration := None; Partial.status := None;
     Partial.progress := Some progress;
     Partial.stage := Some TaskStage.generating_subtitle;
     Partial.stageDetail := Some detail;
     Partial.error := None; Partial.subtitles := None;
     Partial.createdAt := None; Partial.updatedAt := None;
     Partial.completedAt := None |}.

Definition synthesis_completed_update : Partial.t :=
  {| Partial.id := None; Partial.filePath := None;
     Partial.fileName := None; Partial.fileSize := None;
     Partial.duration := None;
     Partial.status := Some completed;
     Partial.progress := Some 100%Q;
     Partial.stage := Some TaskStage.completed;
     Partial.stageDetail := Some "视频合成完成";
     Partial.error := None; Partial.subtitles := None;
     Partial.createdAt := None; Partial.updatedAt := None;
     Partial.completedAt := None |}.

Definition cancelled_update : Partial.t :=
  {| Partial.id := None; Partial.filePath := None;
     Partial.fileName := None; Partial.fileSize := None;
     Partial.duration := None;
     Partial.status := Some cancelled;
     Partial.progress := None; Partial.stage := None;
     Partial.stageDetail := Some "已取消";
     Partial.error := None; Partial.subtitles := None;
     Partial.createdAt := None; Partial.updatedAt := None;
     Partial.completedAt := None |}.

(** One socket event through the handler [setupEventHandlers] registers
    for it: the new store and the events emitted to the listeners.  [now]
    is the value of [Date.now()] while the handler runs (one clock value
    per handler call).  The connection events only touch the reconnection
    counter and are left out. *)
Definition on_event (now : Z) (ev : SocketEvent) (state : AppState)
  : AppState * list Emitted :=
  match ev with
  | task_progress update =>
      (handleProgressUpdate update now state, [("progress", ev)])
  | translation_progress _ => (state, [("translation_progress", ev)])
  | translation_completed _ => (state, [("translation_completed", ev)])
  | subtitle_added taskId subtitle =>
      (handleSubtitleAdded taskId subtitle now state,
       [("subtitle_added", ev)])
  | task_completed task =>
      (updateTask (VideoTask.id task)
         (completed_update (VideoTask.subtitles task) now) now state,
       [("completed", ev)])
  | task_failed taskId error =>
      (updateTask taskId (failed_update "处理失败: " error) now state,
       [("failed", ev)])
  | synthesis_progress taskId progress detail _ =>
      (updateTask taskId (synthesis_progress_update progress detail)
         now state,
       [("synthesis_progress", ev)])
  | synthesis_completed taskId _ _ =>
      (updateTask taskId synthesis_completed_update now state,
       [("synthesis_completed", ev)])
  | synthesis_failed taskId error _ =>
      (updateTask taskId (failed_update "合成失败: " error) now state,
       [("synthesis_failed", ev)])
  | task_cancelled taskId =>
      (updateTask taskId cancelled_update now state, [("cancelled", ev)])
  | all_tasks_completed =>
      (setProcessing false state, [("allCompleted", ev)])
  end.

(** A run of the service: the events arrive one after the other, each
    with the clock value at its arrival. *)
Fixpoint run (evs : list (Z * SocketEvent)) (state : AppState)
  : AppState * list Emitted :=
  match evs with
  | [] => (state, [])
  | (now, ev) :: rest =>
      let '(state1, out1) := on_event now ev state in
      let '(state2, out2) := run rest state1 in
      (state2, (out1 ++ out2)%list)
  end.

(** ** Export helpers *)

(** [Number.prototype.toString] on an integer-valued number below
    [10^21]: its decimal digits, with a minus sign when negative. *)
Definition toString (n : Z) : string :=
  DecimalString.NilZero.string_of_int (Z.to_int n).

(** [String.prototype.padStart(targetLength, padString)] with a
    one-character [padString]: pads on the left, never truncates. *)
Fixpoint repeat_char (c : ascii) (n : nat) : string :=
  match n with
  | O => ""
  | S n' => String c (repeat_char c n')
  end.

Definition padStart (targetLength : nat) (padString : ascii) (s : string)
  : string :=
  repeat_char padString (targetLength - String.length s) ++ s.

(** The line feed of the template literals. *)
Definition nl : string := String (ascii_of_nat 10) "".

(** [formatSrtTime] *)
Definition formatSrtTime (seconds : number) : string :=
  let h := floor (div64 seconds 3600%Q) in
  let m := floor (div64 (fmod seconds 3600%Q) 60%Q) in
  let s := floor (fmod seconds 60%Q) in
  let ms := floor (mul64 (fmod seconds 1%Q) 1000%Q) in
  padStart 2 "0" (toString h) ++ ":" ++
  padStart 2 "0" (toString m) ++ ":" ++
  padStart 2 "0" (toString s) ++ "," ++
  padStart 3 "0" (toString ms).

Inductive ExportMode : Type :=
  | original | translated | bilingual | bilingual_tagged.

(** Truthiness of an optional string: present and not empty. *)
Definition truthy (s : option string) : bool :=
  match s with
  | Some (String _ _) => true
  | _ => false
  end.

(** [a || b] on an optional string and a string. *)
Definition or_else (a : option string) (b : string) : string :=
  match a with
  | Some (String c r) => String c r
  | _ => b
  end.

(** The [content] of one cue, by export mode. *)
Definition cue_content (mode : ExportMode) (sub : SubtitleEntry.t)
  : string :=
  match mode with
  | original =>
      or_else (SubtitleEntry.originalText sub) (SubtitleEntry.text sub)
  | translated => SubtitleEntry.text sub
  | bilingual =>
      let original_ :=
        or_else (SubtitleEntry.originalText sub) (SubtitleEntry.text sub) in
      let translation := SubtitleEntry.text sub in
      if String.eqb original_ translation
         && negb (truthy (SubtitleEntry.originalText sub))
      then original_
      else original_ ++ nl ++ translation
  | bilingual_tagged =>
      let original_ :=
        or_else (SubtitleEntry.originalText sub) (SubtitleEntry.text sub) in
      let translation := SubtitleEntry.text sub in
      if String.eqb original_ translation
         && negb (truthy (SubtitleEntry.originalText sub))
      then "[O]" ++ original_
      else "[O]" ++ original_ ++ nl ++ "[T]" ++ translation
  end.

(** The callback of [subtitles.map((sub, index) => ...)]. *)
Definition srt_cue (mode : ExportMode) (sub : SubtitleEntry.t)
    (index : nat) : string :=
  let startTime := formatSrtTime (SubtitleEntry.startTime sub) in
  let endTime := formatSrtTime (SubtitleEntry.endTime sub) in
  let content := cue_content mode sub in
  toString (Z.of_nat index + 1) ++ nl ++
  startTime ++ " --> " ++ endTime ++ nl ++
  content ++ nl.

(** [Array.prototype.map] with the element index. *)
Fixpoint map_index {A B : Type} (f : A -> nat -> B) (from : nat)
    (l : list A) : list B :=
  match l with
  | [] => []
  | a :: l' => f a from :: map_index f (S from) l'
  end.

(** [generateSrtContent] *)
Definition generateSrtContent (subtitles : list SubtitleEntry.t)
    (mode : ExportMode) : string :=
  String.concat nl (map_index (srt_cue mode) 0 subtitles).

(** ** File sizes *)

(** [Math.floor(Math.log(bytes) / Math.log(k))] for [k = 1024] and a
    positive [bytes], idealised: the quotient of the two library
    logarithms is taken to be the exact base-1024 logarithm, whose floor
    is the binary exponent of [bytes] divided by ten.  The binary64
    quotient can differ from it within a few units in the last place, so
    just below a power of 1024 it may already be the next whole number
    (at [2^50 - 1] bytes the code takes index 5, this definition 4).
    The results on [formatFileSize] below are at sizes whose quotient is
    much farther from a whole number than that. *)
Definition floor_log_k (bytes : number) : Z := Qlog2 bytes / 10.

(** [Math.pow(k, i)] for [k = 1024]. *)
Definition pow_k (i : Z) : number := Qpow2 (10 * i).

(** [x.toFixed(2)] for [0 <= x < 10^21], as the number of hundredths it
    prints: the integer [n] with [n / 100] closest to [x], the larger one
    on a tie. *)
Definition toFixed2 (x : number) : Z := Qfloor (x * 100 + (1 # 2))%Q.

(** The string JavaScript prints for the number [parseFloat] reads back
    from a [toFixed(2)] output of [n] hundredths: the integer part, then
    the fraction without trailing zeros. *)
Definition parseFloat_toString (n : Z) : string :=
  let int_part := n / 100 in
  let frac := n mod 100 in
  if frac =? 0 then toString int_part
  else if frac mod 10 =? 0 then
    toString int_part ++ "." ++ toString (frac / 10)
  else
    toString int_part ++ "." ++ padStart 2 "0" (toString frac).

(** [sizes[i]] in a string concatenation: an index outside the array
    reads [undefined]. *)
Definition index_or_undefined (sizes : list string) (i : Z) : string :=
  if i <? 0 then "undefined"
  else match nth_error sizes (Z.to_nat i) with
       | Some unit => unit
       | None => "undefined"
       end.

(** The helper of the store module. *)
Module StoreHelpers.
Definition formatFileSize (bytes : number) : string :=
  if Qeq_bool bytes 0 then "0 B"
  else
    let sizes := ["B"; "KB"; "MB"; "GB"] in
    let i := floor_log_k bytes in
    parseFloat_toString (toFixed2 (div64 bytes (pow_k i)))
      ++ " " ++ index_or_undefined sizes i.
End StoreHelpers.

(** The copy next to the export helpers. *)
Module ExportUtils.
Definition formatFileSize (bytes : number) : string :=
  if Qeq_bool bytes 0 then "0 B"
  else
    let sizes := ["B"; "KB"; "MB"; "GB"; "TB"] in
    let i := floor_log_k bytes in
    parseFloat_toString (toFixed2 (div64 bytes (pow_k i)))
      ++ " " ++ index_or_undefined sizes i.
End ExportUtils.

(** ** Specification predicates *)

(** How one event may change the [error] of a task: only the two failure
    events may write it, together with the [failed] status. *)
Definition error_step (ev : SocketEvent) (before after : VideoTask.t)
  : Prop :=
  match ev with
  | task_failed _ error | synthesis_failed _ error _ =>
      VideoTask.error after = VideoTask.error before
      \/ (VideoTask.status after = failed
          /\ VideoTask.error after = Some error)
  | _ => VideoTask.error after = VideoTask.error before
  end.

(** Sample records used by the examples below. *)
Definition sample_task (id : string) (st : TaskStatus) (p : number)
  : VideoTask.t :=
  {| VideoTask.id := id; VideoTask.filePath := "/v/a.mp4";
     VideoTask.fileName := "a.mp4"; VideoTask.fileSize := 1024%Q;
     VideoTask.duration := None; VideoTask.status := st;
     VideoTask.progress := p; VideoTask.stage := TaskStage.transcribing;
     VideoTask.stageDetail := ""; VideoTask.error := None;
     VideoTask.subtitles := None; VideoTask.createdAt := 1;
     VideoTask.updatedAt := 1; VideoTask.completedAt := None |}.

Definition sample_state (ts : list VideoTask.t) : AppState :=
  {| tasks := ts; selectedTaskId := None; isProcessing := true |}.

Definition sample_entry (id : Z) (s e : number) (txt : string)
    (orig : option string) : SubtitleEntry.t :=
  {| SubtitleEntry.id := id; SubtitleEntry.startTime := s;
     SubtitleEntry.endTime := e; SubtitleEntry.text := txt;
     SubtitleEntry.translation := None; SubtitleEntry.confidence := None;
     SubtitleEntry.originalText := orig;
     SubtitleEntry.detectedLang := None;
     SubtitleEntry.langMismatch := None |}.

(** Executable test for [is_double]: rounding leaves the value alone and
    the value is below the overflow threshold. *)
Definition is_doubleb (q : Q) : bool :=
  Qeq_bool (round64 q) q && negb (Qle_bool (Qpow2 1024) (Qabs q)).

(** The order the subtitles of a task are kept in. *)
Definition starts_le (a b : SubtitleEntry.t) : Prop :=
  (SubtitleEntry.startTime a <= SubtitleEntry.startTime b)%Q.

Definition start_is_double (s : SubtitleEntry.t) : Prop :=
  is_double (SubtitleEntry.startTime s).

(** The invariant of a subtitle list: sorted by [startTime], no two
    entries with the same [id], every start time a binary64 value. *)
Definition subtitles_ok (l : list SubtitleEntry.t) : Prop :=
  Sorted starts_le l
  /\ NoDup (map SubtitleEntry.id l)
  /\ Forall start_is_double l.

Definition task_subtitles_ok (task : VideoTask.t) : Prop :=
  match VideoTask.subtitles task with
  | Some l => subtitles_ok l
  | None => True
  end.

(** Sorted insertion keyed on [startTime]: the new entry goes behind the
    entries that start no later than it. *)
Fixpoint insert_by_start (n : SubtitleEntry.t) (l : list SubtitleEntry.t)
  : list SubtitleEntry.t :=
  match l with
  | [] => [n]
  | s :: l' =>
      if Qle_bool (SubtitleEntry.startTime s) (SubtitleEntry.startTime n)
      then s :: insert_by_start n l'
      else n :: s :: l'
  end.

(** One [subtitle_added] arrival: the clock, the task and the payload. *)
Definition Arrival : Type := (Z * string * option RawSubtitle.t)%type.

Definition arrival_event (a : Arrival) : Z * SocketEvent :=
  let '(now, taskId, subtitle) := a in (now, subtitle_added taskId subtitle).


Definition sample_raw (id : Z) (s e : number) : RawSubtitle.t :=
  RawSubtitle.mk id None (Some s) None (Some e) (Some "hello") None.

Definition sample_arrivals : list Arrival :=
  [ (11, "t1", Some (sample_raw 2 3%Q (9 # 2)%Q));
    (12, "t1", Some (sample_raw 1 (1 # 2)%Q 2%Q));
    (13, "t1", Some (sample_raw 2 3%Q (9 # 2)%Q));
    (14, "t1", None);
    (15, "t9", Some (sample_raw 3 1%Q 2%Q)) ].




(** [x] is a whole multiple of [2^e]. *)
Definition on_grid (e : Z) (x : Q) : Prop :=
  exists N : Z, (x == inject_Z N * Qpow2 e)%Q.

Definition digit (d : Z) : ascii := ascii_of_nat (48 + Z.to_nat d).

Definition two_digits (n : Z) : string :=
  String (digit (n / 10)) (String (digit (n mod 10)) "").

Definition three_digits (n : Z) : string :=
  String (digit (n / 100)) (two_digits (n mod 100)).

(** [HH:MM:SS,mmm] *)
Definition srt_timestamp (h m s ms : Z) : string :=
  two_digits h ++ ":" ++ two_digits m ++ ":" ++ two_digits s ++ ","
  ++ three_digits ms.





(** ** More helpers of the store module *)

(** [formatDuration]; [!seconds] holds for zero. *)
Definition formatDuration (seconds : number) : string :=
  if Qeq_bool seconds 0 then "--:--"
  else
    let mins := floor (div64 seconds 60%Q) in
    let secs := floor (fmod seconds 60%Q) in
    padStart 2 "0" (toString mins) ++ ":" ++ padStart 2 "0" (toString secs).

(** ** More of the store *)

(** [clearAll] *)
Definition clearAll (state : AppState) : AppState :=
  {| tasks := []; selectedTaskId := None;
     isProcessing := isProcessing state |}.

(** [setSelectedTask] *)
Definition setSelectedTask (id : option string) (state : AppState)
  : AppState :=
  {| tasks := tasks state; selectedTaskId := id;
     isProcessing := isProcessing state |}.

Definition status_eqb (a b : TaskStatus) : bool :=
  match a, b with
  | pending, pending | processing, processing | paused, paused
  | completed, completed | failed, failed | cancelled, cancelled => true
  | _, _ => false
  end.

(** [getPendingTasks] *)
Definition getPendingTasks (state : AppState) : list VideoTask.t :=
  filter (fun task => status_eqb (VideoTask.status task) pending)
         (tasks state).

(** [getCompletedTasks] *)
Definition getCompletedTasks (state : AppState) : list VideoTask.t :=
  filter (fun task => status_eqb (VideoTask.status task) completed)
         (tasks state).

(** [getActiveTasks] *)
Definition getActiveTasks (state : AppState) : list VideoTask.t :=
  filter (fun task => status_eqb (VideoTask.status task) processing
                      || status_eqb (VideoTask.status task) pending)
         (tasks state).

(** [getTaskCount] *)
Definition getTaskCount (state : AppState) : nat :=
  List.length (tasks state).

(** A key of the later literal of a spread wins when it is present. *)
Definition later_key {A : Type} (second first : option A) : option A :=
  match second with
  | Some v => Some v
  | None => first
  end.

(** [{ ...first, ...second }] on two update literals. *)
Definition spread_updates (first second : Partial.t) : Partial.t :=
  {| Partial.id := later_key (Partial.id second) (Partial.id first);
     Partial.filePath :=
       later_key (Partial.filePath second) (Partial.filePath first);
     Partial.fileName :=
       later_key (Partial.fileName second) (Partial.fileName first);
     Partial.fileSize :=
       later_key (Partial.fileSize second) (Partial.fileSize first);
     Partial.duration :=
       later_key (Partial.duration second) (Partial.duration first);
     Partial.status :=
       later_key (Partial.status second) (Partial.status first);
     Partial.progress :=
       later_key (Partial.progress second) (Partial.progress first);
     Partial.stage := later_key (Partial.stage second) (Partial.stage first);
     Partial.stageDetail :=
       later_key (Partial.stageDetail second) (Partial.stageDetail first);
     Partial.error := later_key (Partial.error second) (Partial.error first);
     Partial.subtitles :=
       later_key (Partial.subtitles second) (Partial.subtitles first);
     Partial.createdAt :=
       later_key (Partial.createdAt second) (Partial.createdAt first);
     Partial.updatedAt :=
       later_key (Partial.updatedAt second) (Partial.updatedAt first);
     Partial.completedAt :=
       later_key (Partial.completedAt second) (Partial.completedAt first) |}.

(** The selection points at a stored task, when there is one. *)
Definition selection_valid (state : AppState) : Prop :=
  match selectedTaskId state with
  | Some id => getTaskById id state <> None
  | None => True
  end.

(** ** The task queue panel ([TaskQueue], [TaskActions]) *)

(** [tasks.filter(t => t.status !== 'completed')] *)
Definition activeTasks (ts : list VideoTask.t) : list VideoTask.t :=
  filter (fun t => negb (status_eqb (VideoTask.status t) completed)) ts.

(** [{ status: ... }] *)
Definition status_update (s : TaskStatus) : Partial.t :=
  {| Partial.id := None; Partial.filePath := None;
     Partial.fileName := None; Partial.fileSize := None;
     Partial.duration := None; Partial.status := Some s;
     Partial.progress := None; Partial.stage := None;
     Partial.stageDetail := None; Partial.error := None;
     Partial.subtitles := None; Partial.createdAt := None;
     Partial.updatedAt := None; Partial.completedAt := None |}.

(** [handleToggleStatus] of the task row; [task] is the row's prop.  The
    second branch also tests for a status ['error'], which [TaskStatus]
    does not have. *)
Definition handleToggleStatus (task : VideoTask.t) (now : Z)
    (state : AppState) : AppState :=
  match VideoTask.status task with
  | processing =>
      updateTask (VideoTask.id task) (status_update pending) now state
  | pending =>
      updateTask (VideoTask.id task) (status_update processing) now state
  | _ => state
  end.

(** ** Events, by target and by local name *)

(** The task an event is addressed to. *)
Definition event_target (ev : SocketEvent) : option string :=
  match ev with
  | task_progress update => Some (ProgressUpdate.taskId update)
  | subtitle_added taskId _ => Some taskId
  | task_completed task => Some (VideoTask.id task)
  | task_failed taskId _ => Some taskId
  | synthesis_progress taskId _ _ _ => Some taskId
  | synthesis_completed taskId _ _ => Some taskId
  | synthesis_failed taskId _ _ => Some taskId
  | task_cancelled taskId => Some taskId
  | translation_progress _ | translation_completed _
  | all_tasks_completed => None
  end.

(** The name under which an event is handed to the listeners. *)
Definition local_name (ev : SocketEvent) : string :=
  match ev with
  | task_progress _ => "progress"
  | translation_progress _ => "translation_progress"
  | translation_completed _ => "translation_completed"
  | subtitle_added _ _ => "subtitle_added"
  | task_completed _ => "completed"
  | task_failed _ _ => "failed"
  | synthesis_progress _ _ _ _ => "synthesis_progress"
  | synthesis_completed _ _ _ => "synthesis_completed"
  | synthesis_failed _ _ _ => "synthesis_failed"
  | task_cancelled _ => "cancelled"
  | all_tasks_completed => "allCompleted"
  end.

(** Whether a subtitle list has an entry with the id. *)
Definition known_id (i : Z) (l : list SubtitleEntry.t) : bool :=
  existsb (fun s => Z.eqb (SubtitleEntry.id s) i) l.

(** The subtitle lists of the store once the tasks with the id hold
    [l]. *)
Definition with_list (taskId : string) (state : AppState)
    (l : list SubtitleEntry.t) : list (option (list SubtitleEntry.t)) :=
  map (fun t => if String.eqb (VideoTask.id t) taskId
                then Some l else VideoTask.subtitles t) (tasks state).

(** ** Listeners and outgoing messages of the websocket service *)

(** [Map<string, Set<callback>>]: keys and set elements in insertion
    order; a callback is identified by a number. *)
Definition Listeners : Type := list (string * list nat).

Fixpoint listeners_get (event : string) (m : Listeners)
  : option (list nat) :=
  match m with
  | [] => None
  | (k, s) :: m' =>
      if String.eqb k event then Some s else listeners_get event m'
  end.

(** [Map.prototype.set]: an existing key keeps its place. *)
Fixpoint listeners_set (event : string) (s : list nat) (m : Listeners)
  : Listeners :=
  match m with
  | [] => [(event, s)]
  | (k, s') :: m' =>
      if String.eqb k event then (k, s) :: m'
      else (k, s') :: listeners_set event s m'
  end.

(** [Set.prototype.add]: an element already in the set is not added
    again. *)
Definition set_add (cb : nat) (s : list nat) : list nat :=
  if existsb (Nat.eqb cb) s then s else (s ++ [cb])%list.

(** [Set.prototype.delete] *)
Definition set_delete (cb : nat) (s : list nat) : list nat :=
  filter (fun c => negb (Nat.eqb cb c)) s.

(** [on]: the set of the event is created when missing, then the
    callback is added. *)
Definition on (event : string) (callback : nat) (m : Listeners)
  : Listeners :=
  match listeners_get event m with
  | Some s => listeners_set event (set_add callback s) m
  | None => listeners_set event (set_add callback []) m
  end.

(** [off], also the function [on] returns. *)
Definition off (event : string) (callback : nat) (m : Listeners)
  : Listeners :=
  match listeners_get event m with
  | Some s => listeners_set event (set_delete callback s) m
  | None => m
  end.

(** The callbacks [emit(event, data)] calls, in call order; a callback
    that throws is caught and the next one is called. *)
Definition emit_calls (event : string) (m : Listeners) : list nat :=
  match listeners_get event m with
  | Some s => s
  | None => []
  end.

Inductive ListenerOp : Type :=
  | OpOn (event : string) (callback : nat)
  | OpOff (event : string) (callback : nat).

Definition apply_op (m : Listeners) (op : ListenerOp) : Listeners :=
  match op with
  | OpOn event callback => on event callback m
  | OpOff event callback => off event callback m
  end.

(** The listeners after a series of [on] and [off] calls on a fresh
    service. *)
Definition listeners_after (ops : list ListenerOp) : Listeners :=
  fold_left apply_op ops [].

(** Every listener set is free of repetitions. *)
Definition sets_nodup (m : Listeners) : Prop :=
  forall e s, listeners_get e m = Some s -> NoDup s.

(** The data of an outgoing message. *)
Inductive Payload : Type :=
  | NoData
  | TaskIds (task_ids : list string)
  | TaskIdSnake (task_id : string)
  | JoinTask (taskId : string).

(** The socket as the service sees it: the [connected] flag and the
    messages handed to [socket.emit]. *)
Record Socket : Type := mkSocket {
  connected : bool;
  sent : list (string * Payload)
}.

(** [emitEvent]: a message for a socket that is not connected is
    dropped with a warning. *)
Definition emitEvent (event : string) (data : Payload) (sock : Socket)
  : Socket :=
  if connected sock
  then {| connected := true; sent := (sent sock ++ [(event, data)])%list |}
  else sock.

Definition startQueue (taskIds : list string) : Socket -> Socket :=
  emitEvent "start_queue" (TaskIds taskIds).
Definition pauseQueue : Socket -> Socket := emitEvent "pause_queue" NoData.
Definition resumeQueue : Socket -> Socket := emitEvent "resume_queue" NoData.
Definition cancelQueue : Socket -> Socket := emitEvent "cancel_queue" NoData.
Definition cancelTask (taskId : string) : Socket -> Socket :=
  emitEvent "cancel_task" (TaskIdSnake taskId).

Inductive Command : Type :=
  | StartQueue (taskIds : list string)
  | PauseQueue | ResumeQueue | CancelQueue
  | CancelTask (taskId : string).

Definition run_command (sock : Socket) (c : Command) : Socket :=
  match c with
  | StartQueue taskIds => startQueue taskIds sock
  | PauseQueue => pauseQueue sock
  | ResumeQueue => resumeQueue sock
  | CancelQueue => cancelQueue sock
  | CancelTask taskId => cancelTask taskId sock
  end.

(** The message a command puts on the wire. *)
Definition wire (c : Command) : string * Payload :=
  match c with
  | StartQueue taskIds => ("start_queue", TaskIds taskIds)
  | PauseQueue => ("pause_queue", NoData)
  | ResumeQueue => ("resume_queue", NoData)
  | CancelQueue => ("cancel_queue", NoData)
  | CancelTask taskId => ("cancel_task", TaskIdSnake taskId)
  end.

(** The body of the ['connection'] listener of [App]: on a connected
    status every processing task of the list [ts] it iterates over
    rejoins its room.  Returns the [isConnected] flag and the socket. *)
Definition on_connection (status : string) (ts : list VideoTask.t)
    (sock : Socket) : bool * Socket :=
  let isConnected := String.eqb status "connected" in
  if isConnected then
    (isConnected,
     fold_left
       (fun sk task =>
          match VideoTask.status task with
          | processing =>
              emitEvent "join_task" (JoinTask (VideoTask.id task)) sk
          | _ => sk
          end)
       ts sock)
  else (isConnected, sock).

(** The store as [create] builds it: [tasks: []], [selectedTaskId: null],
    [isProcessing: false].  [partialize] persists the configuration and
    the theme only, so the tasks are empty at every start. *)
Definition initial_state : AppState :=
  {| tasks := []; selectedTaskId := None; isProcessing := false |}.

(** The listener as [App] registers it.  The effect that registers it has
    an empty dependency list: it runs once, when [App] mounts, and the
    listener keeps the [tasks] of that render.  [mounted] is the store at
    that time, [current] the store when the event arrives. *)
Definition connection_listener (mounted current : AppState)
    (status : string) (sock : Socket) : bool * Socket :=
  on_connection status (tasks mounted) sock.

(** * Properties *)

(** Closed comparisons of rationals, by computation. *)
Ltac qle_compute := apply Qle_bool_iff; vm_compute; reflexivity.
Ltac qlt_compute := apply Qlt_alt; vm_compute; reflexivity.

(** ** Binary64 rounding *)

Lemma Qpow2_pos e : (0 < Qpow2 e)%Q.
Proof. apply Qpower_0_lt. reflexivity. Qed.

Lemma Qpow2_add a b : (Qpow2 (a + b) == Qpow2 a * Qpow2 b)%Q.
Proof. apply Qpower_plus. discriminate. Qed.

Lemma Qpow2_le a b : a <= b -> (Qpow2 a <= Qpow2 b)%Q.
Proof. intros H. apply Qpower_le_compat_l; [exact H | discriminate]. Qed.

Lemma Qpow2_lt a b : a < b -> (Qpow2 a < Qpow2 b)%Q.
Proof. intros H. apply Qpower_lt_compat_l; [exact H | reflexivity]. Qed.

Lemma Qpow2_lt_inv a b : (Qpow2 a < Qpow2 b)%Q -> a < b.
Proof. intros H. apply (Qpower_lt_compat_l_inv 2); [exact H | reflexivity]. Qed.

Lemma Qpow2_Z e : 0 <= e -> (Qpow2 e == inject_Z (2 ^ e))%Q.
Proof. intros H. unfold Qpow2. now rewrite Zpower_Qpower. Qed.

(** A power of two is a whole multiple of every smaller one. *)
Lemma Qpow2_multiple a b :
  b <= a -> (Qpow2 a == inject_Z (2 ^ (a - b)) * Qpow2 b)%Q.
Proof.
  intros H. rewrite <- Qpow2_Z by lia. rewrite <- Qpow2_add.
  now replace (a - b + b) with a by lia.
Qed.

Lemma Qmake_mult_den (n : Z) (d : positive) :
  ((n # d) * inject_Z (Zpos d) == inject_Z n)%Q.
Proof. unfold Qeq, inject_Z. cbn. rewrite Pos.mul_1_r. ring. Qed.

Lemma Qlog2_spec q :
  (0 < q)%Q -> (Qpow2 (Qlog2 q) <= q)%Q /\ (q < Qpow2 (Qlog2 q + 1))%Q.
Proof.
  intros Hq. destruct q as [n d].
  assert (Hn : 0 < n) by (unfold Qlt in Hq; cbn in Hq; lia).
  unfold Qlog2. cbn [Qnum Qden].
  set (a := Z.log2 n). set (b := Z.log2 (Zpos d)).
  destruct (Z.log2_spec n Hn) as [Ha1 Ha2]. fold a in Ha1, Ha2.
  destruct (Z.log2_spec (Zpos d) (Pos2Z.is_pos d)) as [Hb1 Hb2].
  fold b in Hb1, Hb2.
  assert (Ha0 : 0 <= a) by apply Z.log2_nonneg.
  assert (Hb0 : 0 <= b) by apply Z.log2_nonneg.
  pose proof (Qmake_mult_den n d) as Hx.
  assert (Hhigh : (n # d < Qpow2 (a - b + 1))%Q).
  { apply (Qmult_lt_r _ _ (Qpow2 b) (Qpow2_pos b)).
    rewrite <- Qpow2_add. replace (a - b + 1 + b) with (a + 1) by lia.
    apply Qle_lt_trans with ((n # d) * inject_Z (Zpos d))%Q.
    - apply Qmult_le_l; [exact Hq|].
      rewrite Qpow2_Z by lia. rewrite <- Zle_Qle. exact Hb1.
    - rewrite Hx, Qpow2_Z by lia. rewrite <- Zlt_Qlt.
      now replace (a + 1) with (Z.succ a) by lia. }
  assert (Hlow : (Qpow2 (a - b - 1) < n # d)%Q).
  { apply (Qmult_lt_r _ _ (Qpow2 (b + 1)) (Qpow2_pos (b + 1))).
    rewrite <- Qpow2_add. replace (a - b - 1 + (b + 1)) with a by lia.
    apply Qle_lt_trans with ((n # d) * inject_Z (Zpos d))%Q.
    - rewrite Hx, Qpow2_Z by lia. rewrite <- Zle_Qle. exact Ha1.
    - apply Qmult_lt_l; [exact Hq|].
      rewrite Qpow2_Z by lia. rewrite <- Zlt_Qlt.
      now replace (b + 1) with (Z.succ b) by lia. }
  destruct (Qle_bool (Qpow2 (a - b)) (n # d)) eqn:E.
  - apply Qle_bool_iff in E. split; [exact E | exact Hhigh].
  - split; [apply Qlt_le_weak, Hlow|].
    replace (a - b - 1 + 1) with (a - b) by lia.
    apply Qnot_le_lt. intros H. apply Qle_bool_iff in H. congruence.
Qed.

Lemma Qlog2_ge k q : (0 < q)%Q -> (Qpow2 k <= q)%Q -> k <= Qlog2 q.
Proof.
  intros Hq Hk. destruct (Qlog2_spec q Hq) as [_ Hu].
  assert (H : k < Qlog2 q + 1).
  { apply Qpow2_lt_inv. eapply Qle_lt_trans; eassumption. }
  lia.
Qed.

Lemma Qlog2_lt k q : (0 < q)%Q -> (q < Qpow2 k)%Q -> Qlog2 q < k.
Proof.
  intros Hq Hk. destruct (Qlog2_spec q Hq) as [Hl _].
  apply Qpow2_lt_inv. eapply Qle_lt_trans; eassumption.
Qed.

Lemma rne_floor q : Qfloor q <= rne q <= Qfloor q + 1.
Proof.
  unfold rne. destruct (Qcompare _ _); [destruct (Z.even _)| |]; lia.
Qed.

Lemma rne_ge q K : (inject_Z K <= q)%Q -> K <= rne q.
Proof.
  intros H. apply Qfloor_resp_le in H. rewrite Qfloor_Z in H.
  pose proof (rne_floor q). lia.
Qed.

Lemma rne_le q K : (q <= inject_Z K)%Q -> rne q <= K.
Proof.
  intros H. pose proof (Qfloor_resp_le _ _ H) as Hf. rewrite Qfloor_Z in Hf.
  pose proof (rne_floor q) as Hr.
  destruct (Z.eq_dec (Qfloor q) K) as [He|Hne]; [|lia].
  unfold rne. rewrite He.
  assert (Hq : (q - inject_Z K < 1 # 2)%Q).
  { apply Qle_lt_trans with 0%Q; [|reflexivity].
    apply (Qplus_le_l _ _ (inject_Z K)). ring_simplify. exact H. }
  assert (Hc : ((q - inject_Z K) ?= (1 # 2))%Q = Lt)
    by (apply Qlt_alt; exact Hq).
  rewrite Hc. lia.
Qed.

Lemma round64_zero q : (q == 0)%Q -> round64 q = 0%Q.
Proof.
  intros H. unfold round64. apply Qeq_bool_iff in H. now rewrite H.
Qed.

Lemma round64_nonzero q :
  ~ (q == 0)%Q ->
  round64 q
  = (inject_Z (rne (q / Qpow2 (ulp_exp q))) * Qpow2 (ulp_exp q))%Q.
Proof.
  intros H. unfold round64. destruct (Qeq_bool q 0) eqn:E; [|reflexivity].
  apply Qeq_bool_iff in E. contradiction.
Qed.

Lemma Qdiv_pow2_le q e K :
  (q <= inject_Z K * Qpow2 e)%Q -> (q / Qpow2 e <= inject_Z K)%Q.
Proof.
  intros H. apply Qle_shift_div_r; [apply Qpow2_pos | exact H].
Qed.

Lemma Qdiv_pow2_ge q e K :
  (inject_Z K * Qpow2 e <= q)%Q -> (inject_Z K <= q / Qpow2 e)%Q.
Proof.
  intros H. apply Qle_shift_div_l; [apply Qpow2_pos | exact H].
Qed.

Lemma round64_nonneg q : (0 <= q)%Q -> (0 <= round64 q)%Q.
Proof.
  intros H. destruct (Qeq_dec q 0) as [E|E].
  - rewrite (round64_zero q E). apply Qle_refl.
  - rewrite (round64_nonzero q E). apply Qmult_le_0_compat.
    + change 0%Q with (inject_Z 0). rewrite <- Zle_Qle. apply rne_ge.
      apply Qdiv_pow2_ge. now rewrite Qmult_0_l.
    + apply Qlt_le_weak, Qpow2_pos.
Qed.

Lemma round64_nonpos q : (q <= 0)%Q -> (round64 q <= 0)%Q.
Proof.
  intros H. destruct (Qeq_dec q 0) as [E|E].
  - rewrite (round64_zero q E). apply Qle_refl.
  - rewrite (round64_nonzero q E).
    assert (Hr : rne (q / Qpow2 (ulp_exp q)) <= 0).
    { apply rne_le. apply Qdiv_pow2_le. now rewrite Qmult_0_l. }
    rewrite Zle_Qle in Hr.
    setoid_replace 0%Q with (0 * Qpow2 (ulp_exp q))%Q by ring.
    apply Qmult_le_compat_r; [exact Hr | apply Qlt_le_weak, Qpow2_pos].
Qed.

Lemma ulp_exp_pos q :
  (0 < q)%Q -> ulp_exp q = Z.max (Qlog2 q) (-1022) - 52.
Proof.
  intros H. unfold ulp_exp. f_equal. f_equal.
  destruct q as [n d]. unfold Qlt in H. cbn in H.
  destruct n; try lia. reflexivity.
Qed.

Lemma ulp_exp_min q : -1074 <= ulp_exp q.
Proof. unfold ulp_exp. lia. Qed.

(** The unit in the last place of a number does not exceed it, from the
    smallest subnormal on. *)
Lemma ulp_le q : (Qpow2 (-1074) <= q)%Q -> (Qpow2 (ulp_exp q) <= q)%Q.
Proof.
  intros H.
  assert (Hq : (0 < q)%Q)
    by (eapply Qlt_le_trans; [apply Qpow2_pos | exact H]).
  rewrite (ulp_exp_pos q Hq).
  destruct (Z.max_spec (Qlog2 q) (-1022)) as [[_ ->]|[_ ->]].
  - exact H.
  - eapply Qle_trans; [|apply (Qlog2_spec q Hq)]. apply Qpow2_le. lia.
Qed.

Lemma round64_pos q : (Qpow2 (-1074) <= q)%Q -> (0 < round64 q)%Q.
Proof.
  intros H.
  assert (Hq : (0 < q)%Q)
    by (eapply Qlt_le_trans; [apply Qpow2_pos | exact H]).
  rewrite round64_nonzero.
  2:{ intros E. rewrite E in Hq. discriminate. }
  assert (Hr : 1 <= rne (q / Qpow2 (ulp_exp q))).
  { apply rne_ge. apply Qdiv_pow2_ge. rewrite Qmult_1_l. now apply ulp_le. }
  rewrite Zle_Qle in Hr.
  apply Qlt_le_trans with (1 * Qpow2 (ulp_exp q))%Q.
  - rewrite Qmult_1_l. apply Qpow2_pos.
  - apply Qmult_le_compat_r; [exact Hr | apply Qlt_le_weak, Qpow2_pos].
Qed.

(** Every binary64 value is a whole multiple of any power of two below
    its own unit in the last place. *)
Lemma is_double_multiple x e :
  is_double x -> e <= ulp_exp x ->
  exists N : Z, (x == inject_Z N * Qpow2 e)%Q.
Proof.
  intros [[M HM] _] He. exists (M * 2 ^ (ulp_exp x - e)).
  rewrite HM at 1. rewrite (Qpow2_multiple (ulp_exp x) e He).
  rewrite inject_Z_mult. ring.
Qed.

(** Two different binary64 values are at least one smallest subnormal
    apart. *)
Lemma doubles_apart x y :
  is_double x -> is_double y -> (y < x)%Q -> (Qpow2 (-1074) <= x - y)%Q.
Proof.
  intros Hx Hy Hlt.
  destruct (is_double_multiple x (-1074) Hx (ulp_exp_min x)) as [N HN].
  destruct (is_double_multiple y (-1074) Hy (ulp_exp_min y)) as [N' HN'].
  assert (HNN : N' < N).
  { rewrite HN, HN' in Hlt. apply Qmult_lt_r in Hlt; [|apply Qpow2_pos].
    now rewrite <- Zlt_Qlt in Hlt. }
  assert (H1 : 1 <= N - N') by lia.
  rewrite Zle_Qle in H1.
  setoid_replace (x - y)%Q with (inject_Z (N - N') * Qpow2 (-1074))%Q.
  - rewrite <- (Qmult_1_l (Qpow2 (-1074))) at 1.
    apply Qmult_le_compat_r; [exact H1 | apply Qlt_le_weak, Qpow2_pos].
  - rewrite HN, HN'. unfold Z.sub. rewrite inject_Z_plus, inject_Z_opp. ring.
Qed.

(** The sign of a binary64 subtraction is the sign of the exact
    difference. *)
Lemma sub64_le_0 x y :
  is_double x -> is_double y ->
  Qle_bool (sub64 x y) 0 = true <-> (x <= y)%Q.
Proof.
  intros Hx Hy. rewrite Qle_bool_iff. unfold sub64. split.
  - intros H. apply Qnot_lt_le. intros Hlt.
    pose proof (round64_pos _ (doubles_apart x y Hx Hy Hlt)) as Hp.
    apply (Qlt_irrefl 0). eapply Qlt_le_trans; eassumption.
  - intros H. apply round64_nonpos.
    apply (Qplus_le_l _ _ y). ring_simplify. exact H.
Qed.

Example round64_tenth :
  Qred (round64 (1 # 10)) = (3602879701896397 # 36028797018963968)%Q.
Proof. vm_compute. reflexivity. Qed.

(** ** The store *)

Lemma updateTask_tasks id u now state :
  tasks (updateTask id u now state)
  = map (fun task => if String.eqb (VideoTask.id task) id
                     then spread task u now else task) (tasks state).
Proof. reflexivity. Qed.

Lemma updateTask_length id u now state :
  List.length (tasks (updateTask id u now state)) = List.length (tasks state).
Proof. rewrite updateTask_tasks. apply length_map. Qed.

Lemma updateTask_nth id u now state k :
  nth_error (tasks (updateTask id u now state)) k
  = option_map (fun task => if String.eqb (VideoTask.id task) id
                            then spread task u now else task)
               (nth_error (tasks state) k).
Proof. rewrite updateTask_tasks. apply nth_error_map. Qed.

(** C1, as stated, fails: a completed task that receives [task_failed] is
    not protected; its status, error and detail are overwritten. *)
Lemma terminal_task_is_mutated :
  let t := sample_task "t1" completed 100%Q in
  let st := sample_state [t] in
  is_terminal (VideoTask.status t) = true
  /\ map VideoTask.status
       (tasks (fst (on_event 2 (task_failed "t1" "late error") st)))
     = [failed]
  /\ tasks (fst (on_event 2 (task_failed "t1" "late error") st))
     <> tasks st.
Proof.
  split; [reflexivity|]. split; [reflexivity|].
  vm_compute. discriminate.
Qed.

(** C1 (amended): the store has no finished-task rejection.  A task in a
    terminal status is updated like any other one when its id is the
    target: the fields named by the updates are overwritten, also its
    status (an update that names a status that is not terminal takes it
    out of the terminal ones), and [updatedAt] is set to the current
    time.  It is left unchanged by the updates addressed to another id,
    and by an update addressed to it only when that update writes back
    what the record already holds, [updatedAt] included; so an update
    that reaches it at another time than its [updatedAt] changes the
    record. *)
Theorem updateTask_terminal_task id u now state k t :
  nth_error (tasks state) k = Some t ->
  is_terminal (VideoTask.status t) = true ->
  nth_error (tasks (updateTask id u now state)) k
  = Some (if String.eqb (VideoTask.id t) id then spread t u now else t)
  /\ List.length (tasks (updateTask id u now state)) = List.length (tasks state)
  /\ (VideoTask.id t <> id ->
      nth_error (tasks (updateTask id u now state)) k = Some t)
  /\ (VideoTask.id t = id ->
      exists t', nth_error (tasks (updateTask id u now state)) k = Some t'
                 /\ VideoTask.updatedAt t' = now
                 /\ VideoTask.status t'
                    = override (Partial.status u) (VideoTask.status t))
  /\ (nth_error (tasks (updateTask id u now state)) k = Some t
      <-> VideoTask.id t <> id \/ spread t u now = t)
  /\ (VideoTask.id t = id -> VideoTask.updatedAt t <> now ->
      nth_error (tasks (updateTask id u now state)) k <> Some t)
  /\ (VideoTask.id t = id ->
      forall s, Partial.status u = Some s ->
      exists t', nth_error (tasks (updateTask id u now state)) k = Some t'
                 /\ VideoTask.status t' = s
                 /\ (is_terminal s = false ->
                     is_terminal (VideoTask.status t')
                     <> is_terminal (VideoTask.status t))).
Proof.
  intros Hk Hterm. rewrite updateTask_nth, Hk. cbn [option_map].
  split; [reflexivity|]. split; [apply updateTask_length|].
  destruct (String.eqb (VideoTask.id t) id) eqn:He.
  - apply String.eqb_eq in He.
    split; [intros Hne; contradiction|].
    split; [intros _; eexists; split; [reflexivity|]; split; reflexivity|].
    split; [|split].
    + split.
      * intros H. right. congruence.
      * intros [Hne|Hs]; [contradiction|now rewrite Hs].
    + intros _ Hnow H. apply Hnow.
      assert (Hs : spread t u now = t) by congruence.
      rewrite <- Hs at 1. reflexivity.
    + intros _ s Hs. eexists. split; [reflexivity|].
      assert (Hst : VideoTask.status (spread t u now) = s)
        by (cbn; now rewrite Hs).
      split; [exact Hst|]. rewrite Hst, Hterm. intros ->. discriminate.
  - apply String.eqb_neq in He.
    split; [reflexivity|].
    split; [intros H; contradiction|].
    split; [|split].
    + split; [intros _; now left | reflexivity].
    + intros H; contradiction.
    + intros H; contradiction.
Qed.

Lemma updateTask_terminal_task_witness :
  let t := sample_task "t1" cancelled 40%Q in
  let st := sample_state [t; sample_task "t2" completed 100%Q] in
  nth_error (tasks (updateTask "t1" cancelled_update 9 st)) 0
  = Some (spread t cancelled_update 9)
  /\ (exists t',
        nth_error (tasks (updateTask "t1" (status_update processing) 9 st)) 0
        = Some t'
        /\ VideoTask.status t' = processing)
  /\ nth_error (tasks (updateTask "t1" cancelled_update 9 st)) 1
     = Some (sample_task "t2" completed 100%Q).
Proof.
  intros t st. split; [|split].
  - exact (proj1 (updateTask_terminal_task "t1" cancelled_update 9
                    st 0 t eq_refl eq_refl)).
  - destruct (proj2 (proj2 (proj2 (proj2 (proj2 (proj2
                (updateTask_terminal_task "t1" (status_update processing) 9
                   st 0 t eq_refl eq_refl)))))) eq_refl processing eq_refl)
      as (t' & Hk & Hs & _).
    exists t'. split; [exact Hk | exact Hs].
  - refine (proj1 (proj2 (proj2
             (updateTask_terminal_task "t1" cancelled_update 9 st 1
                (sample_task "t2" completed 100%Q) eq_refl eq_refl))) _).
    discriminate.
Defined.

(** ** Failure, cancellation and progress events *)

Lemma Forall2_map_r {A B : Type} (R : A -> B -> Prop) (f : A -> B)
    (l : list A) :
  (forall a, In a l -> R a (f a)) -> Forall2 R l (map f l).
Proof.
  induction l as [|a l IH]; intros H; cbn; constructor.
  - apply H. now left.
  - apply IH. intros b Hb. apply H. now right.
Qed.

Lemma Forall2_same {A : Type} (R : A -> A -> Prop) (l : list A) :
  (forall a, In a l -> R a a) -> Forall2 R l l.
Proof.
  intros H. rewrite <- (map_id l) at 2. now apply Forall2_map_r.
Qed.

(** An update that has no [error] key keeps the error of every task. *)
Lemma updateTask_keeps_error id u now state :
  Partial.error u = None ->
  Forall2 (fun before after =>
             VideoTask.error after = VideoTask.error before)
          (tasks state) (tasks (updateTask id u now state)).
Proof.
  intros Hu. rewrite updateTask_tasks. apply Forall2_map_r.
  intros t _. destruct (String.eqb (VideoTask.id t) id); [|reflexivity].
  cbn. now rewrite Hu.
Qed.

Lemma handleSubtitleAdded_cases taskId subtitle now state :
  handleSubtitleAdded taskId subtitle now state = state
  \/ exists l,
       handleSubtitleAdded taskId subtitle now state
       = updateTask taskId (subtitles_update l) now state.
Proof.
  unfold handleSubtitleAdded.
  destruct (getTaskById taskId state); [|now left].
  destruct subtitle as [raw|]; [|now left].
  destruct (number_or _ _); [|now left].
  destruct (number_or _ _); [|now left].
  destruct (find _ _); [now left|].
  right. eexists. reflexivity.
Qed.

(** C6: the [error] of a task is written only by the two failure events,
    which set the status to [failed] in the same update; every other
    event, the cancellation in particular, leaves the error of every task
    as it was (unset when it was unset). *)
Theorem error_only_set_on_failed now ev state :
  Forall2 (error_step ev)
          (tasks state) (tasks (fst (on_event now ev state))).
Proof.
  assert (Hfail : forall taskId prefix error,
             Forall2 (fun before after =>
                        VideoTask.error after = VideoTask.error before
                        \/ (VideoTask.status after = failed
                            /\ VideoTask.error after = Some error))
               (tasks state)
               (tasks (updateTask taskId (failed_update prefix error)
                         now state))).
  { intros taskId prefix error. rewrite updateTask_tasks.
    apply Forall2_map_r. intros t _.
    destruct (String.eqb (VideoTask.id t) taskId);
      [right; split; reflexivity | now left]. }
  destruct ev; cbn [on_event fst error_step];
    try (apply updateTask_keeps_error; reflexivity);
    try (apply Forall2_same; reflexivity);
    try apply Hfail.
  destruct (handleSubtitleAdded_cases taskId subtitle now state)
    as [-> | [l ->]].
  - apply Forall2_same; reflexivity.
  - apply updateTask_keeps_error; reflexivity.
Qed.

(** C7, as stated, fails: the handler stores what it receives.  Within
    one stage a later update with a smaller value lowers the progress,
    and a value above 100 is stored as it is. *)
Lemma progress_not_monotone_nor_bounded :
  let t := sample_task "t1" processing 50%Q in
  let st := sample_state [t] in
  let lower :=
    ProgressUpdate.mk "t1" TaskStage.transcribing 30%Q "seg" 7 None None in
  let above :=
    ProgressUpdate.mk "t1" TaskStage.transcribing 150%Q "seg" 8 None None in
  map (fun t' => (VideoTask.stage t', VideoTask.progress t'))
      (tasks (fst (on_event 7 (task_progress lower) st)))
  = [(VideoTask.stage t, 30%Q)]
  /\ (30 < VideoTask.progress t)%Q
  /\ map VideoTask.progress
       (tasks (fst (on_event 8 (task_progress above) st)))
     = [150%Q]
  /\ (100 < 150)%Q.
Proof. repeat split. Qed.

(** C7 (amended): a progress update addressed to a task stores the
    received progress, stage and detail as they are: no clamping to
    0..100, no comparison with the previous progress and no reset to a
    stage floor.  The stored progress is therefore within 0..100, and not
    below the previous one, exactly when the received value is. *)
Theorem handleProgressUpdate_stores_update update now state k t :
  nth_error (tasks state) k = Some t ->
  VideoTask.id t = ProgressUpdate.taskId update ->
  exists t',
    nth_error (tasks (handleProgressUpdate update now state)) k = Some t'
    /\ VideoTask.progress t' = ProgressUpdate.progress update
    /\ VideoTask.stage t' = ProgressUpdate.stage update
    /\ VideoTask.stageDetail t' = ProgressUpdate.detail update
    /\ ((0 <= VideoTask.progress t' <= 100)%Q
        <-> (0 <= ProgressUpdate.progress update <= 100)%Q)
    /\ ((VideoTask.progress t <= VideoTask.progress t')%Q
        <-> (VideoTask.progress t <= ProgressUpdate.progress update)%Q).
Proof.
  intros Hk Hid. unfold handleProgressUpdate.
  rewrite updateTask_nth, Hk. cbn [option_map].
  apply String.eqb_eq in Hid. rewrite Hid.
  eexists. split; [reflexivity|]. cbn.
  repeat split; auto; tauto.
Qed.

Lemma handleProgressUpdate_stores_update_witness :
  let t := sample_task "t1" processing 50%Q in
  let update :=
    ProgressUpdate.mk "t1" TaskStage.transcribing 30%Q "seg" 7 None None in
  exists t',
    nth_error
      (tasks (handleProgressUpdate update 7 (sample_state [t]))) 0
    = Some t'
    /\ VideoTask.progress t' = 30%Q.
Proof.
  intros t update.
  destruct (handleProgressUpdate_stores_update update 7
              (sample_state [t]) 0 t eq_refl eq_refl)
    as [t' [H1 [H2 _]]].
  exists t'. split; [exact H1 | exact H2].
Defined.

(** ** Task identifiers *)

(** The object literals of the handlers never carry an [id] key. *)
Lemma updateTask_keeps_ids id u now state :
  Partial.id u = None ->
  map VideoTask.id (tasks (updateTask id u now state))
  = map VideoTask.id (tasks state).
Proof.
  intros Hu. rewrite updateTask_tasks, map_map. apply map_ext.
  intros t. destruct (String.eqb (VideoTask.id t) id); [|reflexivity].
  cbn. now rewrite Hu.
Qed.

Lemma on_event_keeps_ids now ev state :
  map VideoTask.id (tasks (fst (on_event now ev state)))
  = map VideoTask.id (tasks state).
Proof.
  destruct ev; cbn [on_event fst];
    try (apply updateTask_keeps_ids; reflexivity); try reflexivity.
  destruct (handleSubtitleAdded_cases taskId subtitle now state)
    as [-> | [l ->]]; [reflexivity|].
  apply updateTask_keeps_ids; reflexivity.
Qed.

(** C8, as stated, fails: [updates] is a [Partial<VideoTask>], and an
    [id] key in it is spread over the task like any other key. *)
Lemma updateTask_can_change_id :
  let t := sample_task "t1" processing 50%Q in
  let u :=
    Partial.mk (Some "t2") None None None None None None None None None
               None None None None in
  map VideoTask.id (tasks (updateTask "t1" u 3 (sample_state [t])))
  = ["t2"]
  /\ map VideoTask.id (tasks (sample_state [t])) = ["t1"].
Proof. split; reflexivity. Qed.

(** C8 (amended): the id of a task is left unchanged by every
    [updateTask] whose updates carry no [id] key, hence by every event
    handler of the websocket service; [addTask] appends the new task and
    keeps the ids of the tasks already stored. *)
Theorem task_ids_preserved state :
  (forall id u now,
      Partial.id u = None ->
      map VideoTask.id (tasks (updateTask id u now state))
      = map VideoTask.id (tasks state))
  /\ (forall now ev,
         map VideoTask.id (tasks (fst (on_event now ev state)))
         = map VideoTask.id (tasks state))
  /\ (forall task,
         map VideoTask.id (tasks (addTask task state))
         = (map VideoTask.id (tasks state) ++ [VideoTask.id task])%list).
Proof.
  split; [|split].
  - intros id u now. apply updateTask_keeps_ids.
  - intros now ev. apply on_event_keeps_ids.
  - intros task. unfold addTask. cbn. now rewrite map_app.
Qed.

Lemma task_ids_preserved_witness :
  let t := sample_task "t1" processing 50%Q in
  map VideoTask.id
      (tasks (updateTask "t1" cancelled_update 3 (sample_state [t])))
  = ["t1"].
Proof.
  intro t.
  exact (proj1 (task_ids_preserved (sample_state [t]))
               "t1" cancelled_update 3 eq_refl).
Defined.

(** ** Repeated cancellation *)

Lemma spread_cancelled_twice t now1 now2 :
  spread (spread t cancelled_update now1) cancelled_update now2
  = spread t cancelled_update now2.
Proof. reflexivity. Qed.

Lemma spread_cancelled_id t now :
  VideoTask.id (spread t cancelled_update now) = VideoTask.id t.
Proof. reflexivity. Qed.

(** C9, as stated, fails: the handler has no already-cancelled check.  A
    second [task_cancelled] for a cancelled task is emitted to the
    listeners again, and the store changes ([updatedAt] moves). *)
Lemma second_cancel_is_observable :
  let st0 := sample_state [sample_task "t1" processing 50%Q] in
  let st1 := fst (on_event 5 (task_cancelled "t1") st0) in
  map VideoTask.status (tasks st1) = [cancelled]
  /\ snd (on_event 6 (task_cancelled "t1") st1)
     = [("cancelled", task_cancelled "t1")]
  /\ fst (on_event 6 (task_cancelled "t1") st1) <> st1
  /\ map VideoTask.updatedAt
       (tasks (fst (on_event 6 (task_cancelled "t1") st1))) = [6].
Proof.
  split; [reflexivity|]. split; [reflexivity|].
  split; [|reflexivity]. vm_compute. discriminate.
Qed.

(** C9 (amended): cancelling twice leaves the store as a single
    cancellation at the later time does, so that a repeated cancellation
    changes no field of the task other than [updatedAt]; the 'cancelled'
    event is emitted to the listeners on every arrival. *)
Theorem cancel_twice now1 now2 taskId state :
  fst (on_event now2 (task_cancelled taskId)
         (fst (on_event now1 (task_cancelled taskId) state)))
  = fst (on_event now2 (task_cancelled taskId) state)
  /\ snd (on_event now2 (task_cancelled taskId)
            (fst (on_event now1 (task_cancelled taskId) state)))
     = [("cancelled", task_cancelled taskId)].
Proof.
  split; [|reflexivity].
  cbn [on_event fst]. unfold updateTask, set_tasks. cbn.
  f_equal. rewrite map_map. apply map_ext. intros t.
  destruct (String.eqb (VideoTask.id t) taskId) eqn:E.
  - rewrite spread_cancelled_id, E. apply spread_cancelled_twice.
  - now rewrite E.
Qed.

(** ** Bilingual export *)

Lemma or_else_falsy (a : option string) (b : string) :
  truthy a = false -> or_else a b = b.
Proof. destruct a as [[|c r]|]; cbn; congruence. Qed.

Lemma cue_content_bilingual sub :
  cue_content bilingual sub
  = match SubtitleEntry.originalText sub with
    | Some (String c r) => String c r ++ nl ++ SubtitleEntry.text sub
    | _ => SubtitleEntry.text sub
    end.
Proof.
  unfold cue_content.
  destruct (SubtitleEntry.originalText sub) as [[|c r]|];
    cbn [truthy or_else negb].
  - now rewrite String.eqb_refl.
  - now rewrite andb_false_r.
  - now rewrite String.eqb_refl.
Qed.

Lemma cue_content_bilingual_tagged sub :
  cue_content bilingual_tagged sub
  = match SubtitleEntry.originalText sub with
    | Some (String c r) =>
        "[O]" ++ String c r ++ nl ++ "[T]" ++ SubtitleEntry.text sub
    | _ => "[O]" ++ SubtitleEntry.text sub
    end.
Proof.
  unfold cue_content.
  destruct (SubtitleEntry.originalText sub) as [[|c r]|];
    cbn [truthy or_else negb].
  - now rewrite String.eqb_refl.
  - now rewrite andb_false_r.
  - now rewrite String.eqb_refl.
Qed.

(** C5, as stated, fails: an entry without [originalText] is exported on
    a single line in both bilingual modes, so the cue has no second line
    and, in the tagged mode, no [[T]] line. *)
Lemma bilingual_single_line :
  let sub := sample_entry 1 (1 # 2)%Q 2%Q "hi" None in
  generateSrtContent [sub] bilingual
  = "1" ++ nl ++ "00:00:00,500 --> 00:00:02,000" ++ nl ++ "hi" ++ nl
  /\ generateSrtContent [sub] bilingual_tagged
     = "1" ++ nl ++ "00:00:00,500 --> 00:00:02,000" ++ nl ++ "[O]hi" ++ nl.
Proof. split; vm_compute; reflexivity. Qed.

(** C5 (amended): in the two bilingual modes a cue carries both lines
    exactly when the entry has a non-empty [originalText]: the original
    line then the translated line, prefixed with [[O]] and [[T]] in the
    tagged mode.  An entry with no (or an empty) [originalText] is
    rendered on one line: its text, prefixed with [[O]] in the tagged
    mode. *)
Theorem bilingual_cue sub index :
  srt_cue bilingual sub index
  = toString (Z.of_nat index + 1) ++ nl ++
    formatSrtTime (SubtitleEntry.startTime sub) ++ " --> " ++
    formatSrtTime (SubtitleEntry.endTime sub) ++ nl ++
    match SubtitleEntry.originalText sub with
    | Some (String c r) => String c r ++ nl ++ SubtitleEntry.text sub
    | _ => SubtitleEntry.text sub
    end ++ nl
  /\ srt_cue bilingual_tagged sub index
     = toString (Z.of_nat index + 1) ++ nl ++
       formatSrtTime (SubtitleEntry.startTime sub) ++ " --> " ++
       formatSrtTime (SubtitleEntry.endTime sub) ++ nl ++
       match SubtitleEntry.originalText sub with
       | Some (String c r) =>
           "[O]" ++ String c r ++ nl ++ "[T]" ++ SubtitleEntry.text sub
       | _ => "[O]" ++ SubtitleEntry.text sub
       end ++ nl.
Proof.
  unfold srt_cue.
  now rewrite cue_content_bilingual, cue_content_bilingual_tagged.
Qed.

(** ** The two copies of [formatFileSize] *)

(** C10: the copies differ from one tebibyte on.  At [2^41] bytes the
    unit index is 4: the export copy reads ['TB'], the store helper reads
    past the end of its four-unit array and prints [undefined]. *)
Theorem formatFileSize_copies_differ :
  StoreHelpers.formatFileSize 2199023255552%Q = "2 undefined"
  /\ ExportUtils.formatFileSize 2199023255552%Q = "2 TB"
  /\ StoreHelpers.formatFileSize 2199023255552%Q
     <> ExportUtils.formatFileSize 2199023255552%Q.
Proof.
  split; [vm_compute; reflexivity|].
  split; [vm_compute; reflexivity|].
  vm_compute. discriminate.
Qed.

(** ** Incremental subtitles *)

Lemma is_doubleb_sound q : is_doubleb q = true -> is_double q.
Proof.
  unfold is_doubleb. intros H. apply andb_true_iff in H as [H Hb].
  apply Qeq_bool_iff in H. split.
  - destruct (Qeq_dec q 0) as [E|E].
    + exists 0. rewrite Qmult_0_l. exact E.
    + rewrite (round64_nonzero q E) in H. eexists. symmetry. exact H.
  - apply Qnot_le_lt. intros Hle. apply Qle_bool_iff in Hle.
    rewrite Hle in Hb. discriminate.
Qed.

Lemma byStartTime_le a b :
  start_is_double a -> start_is_double b ->
  Qle_bool (byStartTime a b) 0
  = Qle_bool (SubtitleEntry.startTime a) (SubtitleEntry.startTime b).
Proof.
  intros Ha Hb. apply eq_true_iff_eq.
  unfold byStartTime. rewrite (sub64_le_0 _ _ Ha Hb).
  symmetry. apply Qle_bool_iff.
Qed.

Lemma starts_le_bool a b :
  starts_le a b ->
  Qle_bool (SubtitleEntry.startTime a) (SubtitleEntry.startTime b) = true.
Proof. intros H. apply Qle_bool_iff, H. Qed.

(** An element that is no later than the head of a list goes in
    front. *)
Lemma sort_insert_front s l :
  start_is_double s -> Forall start_is_double l -> HdRel starts_le s l ->
  sort_insert byStartTime s l = s :: l.
Proof.
  intros Hs Hl Hhd. destruct l as [|r l]; [reflexivity|].
  cbn. inversion Hhd; subst. inversion Hl; subst.
  rewrite byStartTime_le by assumption.
  now rewrite starts_le_bool.
Qed.

(** Appending an entry to a sorted list and sorting is sorted
    insertion. *)
Lemma sort_snoc n l :
  Sorted starts_le l -> Forall start_is_double l -> start_is_double n ->
  sort byStartTime (l ++ [n]) = insert_by_start n l.
Proof.
  intros Hs Hd Hn. induction l as [|s l IH]; [reflexivity|].
  inversion Hs as [|? ? Hs' Hhd]; subst.
  inversion Hd as [|? ? Hds Hd']; subst.
  change (sort byStartTime ((s :: l) ++ [n]))
    with (sort_insert byStartTime s (sort byStartTime (l ++ [n]))).
  rewrite (IH Hs' Hd'). clear IH.
  destruct l as [|r l].
  - cbn. rewrite byStartTime_le by assumption.
    now destruct (Qle_bool _ _).
  - inversion Hhd as [|? ? Hsr]; subst. inversion Hd'; subst.
    pose proof (starts_le_bool s r Hsr) as Esr.
    cbn [insert_by_start].
    destruct (Qle_bool (SubtitleEntry.startTime r)
                       (SubtitleEntry.startTime n)) eqn:Ern.
    + cbn [sort_insert]. rewrite byStartTime_le, Esr by assumption.
      assert (Esn : starts_le s n).
      { apply Qle_bool_iff in Ern. eapply Qle_trans; eassumption. }
      now rewrite (starts_le_bool s n Esn).
    + cbn [sort_insert]. rewrite byStartTime_le by assumption.
      destruct (Qle_bool (SubtitleEntry.startTime s)
                         (SubtitleEntry.startTime n)); [reflexivity|].
      now rewrite byStartTime_le, Esr by assumption.
Qed.

Lemma insert_by_start_perm n l :
  Permutation (n :: l) (insert_by_start n l).
Proof.
  induction l as [|s l IH]; cbn; [reflexivity|].
  destruct (Qle_bool _ _); [|reflexivity].
  rewrite perm_swap. now constructor.
Qed.

Lemma insert_by_start_hd a n l :
  starts_le a n -> HdRel starts_le a l ->
  HdRel starts_le a (insert_by_start n l).
Proof.
  intros Han Hal. destruct l as [|s l]; cbn.
  - now constructor.
  - inversion Hal; subst. destruct (Qle_bool _ _); now constructor.
Qed.

Lemma insert_by_start_sorted n l :
  Sorted starts_le l -> Sorted starts_le (insert_by_start n l).
Proof.
  intros Hs. induction l as [|s l IH]; cbn.
  - repeat constructor.
  - inversion Hs as [|? ? Hs' Hhd]; subst.
    destruct (Qle_bool _ _) eqn:E.
    + constructor; [apply IH, Hs'|].
      apply insert_by_start_hd; [|exact Hhd].
      apply Qle_bool_iff, E.
    + constructor; [exact Hs|]. constructor.
      unfold starts_le. apply Qlt_le_weak, Qnot_le_lt.
      intros H. apply Qle_bool_iff in H. congruence.
Qed.

(** Sorted insertion of an entry with a fresh id keeps the
    invariant. *)
Lemma insert_by_start_ok n l :
  subtitles_ok l -> start_is_double n ->
  ~ In (SubtitleEntry.id n) (map SubtitleEntry.id l) ->
  subtitles_ok (insert_by_start n l).
Proof.
  intros (Hs & Hnd & Hd) Hn Hfresh. split; [|split].
  - now apply insert_by_start_sorted.
  - eapply Permutation_NoDup.
    + apply Permutation_map, insert_by_start_perm.
    + cbn. now constructor.
  - eapply Permutation_Forall; [apply insert_by_start_perm|].
    now constructor.
Qed.

Lemma find_id_none (i : Z) (l : list SubtitleEntry.t) :
  find (fun s => Z.eqb (SubtitleEntry.id s) i) l = None ->
  ~ In i (map SubtitleEntry.id l).
Proof.
  intros Hf Hin. apply in_map_iff in Hin as [s [Hs Hin]].
  pose proof (find_none _ _ Hf s Hin) as H. cbn in H.
  apply Z.eqb_neq in H. congruence.
Qed.

Lemma find_existsb {A : Type} (f : A -> bool) (l : list A) :
  existsb f l = match find f l with Some _ => true | None => false end.
Proof.
  induction l as [|a l IH]; cbn; [reflexivity|].
  destruct (f a); [reflexivity | exact IH].
Qed.

(** What one arrival does to the store, when the task is known, its list
    is in order and both times are numbers. *)
Lemma handleSubtitleAdded_merge taskId raw now state task startTime endTime :
  getTaskById taskId state = Some task ->
  task_subtitles_ok task ->
  number_or (RawSubtitle.startTime raw) (RawSubtitle.start raw)
  = Some startTime ->
  number_or (RawSubtitle.endTime raw) (RawSubtitle.end_ raw)
  = Some endTime ->
  is_double startTime ->
  handleSubtitleAdded taskId (Some raw) now state
  = if existsb (fun s => Z.eqb (SubtitleEntry.id s) (RawSubtitle.id raw))
               (or_empty (VideoTask.subtitles task))
    then state
    else updateTask taskId
           (subtitles_update
              (insert_by_start (normalize raw startTime endTime)
                 (or_empty (VideoTask.subtitles task))))
           now state.
Proof.
  intros Hget Hok Hs He Hd. unfold handleSubtitleAdded.
  rewrite Hget, Hs, He. cbv zeta. rewrite find_existsb.
  change (SubtitleEntry.id (normalize raw startTime endTime))
    with (RawSubtitle.id raw).
  destruct (find _ _); [reflexivity|].
  rewrite sort_snoc; [reflexivity| | |exact Hd];
    unfold task_subtitles_ok in Hok;
    destruct (VideoTask.subtitles task); cbn;
    try apply Hok; constructor.
Qed.


Lemma or_empty_ok task :
  task_subtitles_ok task -> subtitles_ok (or_empty (VideoTask.subtitles task)).
Proof.
  unfold task_subtitles_ok. destruct (VideoTask.subtitles task); cbn.
  - auto.
  - intros _. repeat split; constructor.
Qed.













Example out_of_order_arrivals :
  map (fun t => map SubtitleEntry.id (or_empty (VideoTask.subtitles t)))
      (tasks (fst (run (map arrival_event sample_arrivals)
                     (sample_state [sample_task "t1" processing 10%Q]))))
  = [[1; 2]].
Proof. vm_compute. reflexivity. Qed.

(** ** SRT time stamps *)

(** Rounding never crosses a binary64 value. *)
Lemma round64_le q b :
  (0 <= q)%Q -> (q <= b)%Q -> is_double b -> (round64 q <= b)%Q.
Proof.
  intros Hq Hqb Hb. destruct (Qeq_dec q 0) as [E|E].
  - rewrite (round64_zero q E). eapply Qle_trans; eassumption.
  - assert (Hq' : (0 < q)%Q).
    { apply Qle_lteq in Hq as [H|H]; [exact H|]. symmetry in H. contradiction. }
    assert (Hb' : (0 < b)%Q) by (eapply Qlt_le_trans; eassumption).
    assert (He : ulp_exp q <= ulp_exp b).
    { rewrite (ulp_exp_pos q Hq'), (ulp_exp_pos b Hb').
      assert (Qlog2 q <= Qlog2 b); [|lia].
      apply Qlog2_ge; [exact Hb'|].
      eapply Qle_trans; [apply (Qlog2_spec q Hq') | exact Hqb]. }
    destruct (is_double_multiple b (ulp_exp q) Hb He) as [N HN].
    rewrite (round64_nonzero q E), HN.
    apply Qmult_le_compat_r; [|apply Qlt_le_weak, Qpow2_pos].
    rewrite <- Zle_Qle. apply rne_le, Qdiv_pow2_le. now rewrite <- HN.
Qed.

Lemma is_double_on_grid x k :
  is_double x -> (Qpow2 k <= x)%Q -> -1022 <= k -> on_grid (k - 52) x.
Proof.
  intros Hx Hk Hmin. apply is_double_multiple; [exact Hx|].
  assert (Hx' : (0 < x)%Q)
    by (eapply Qlt_le_trans; [apply Qpow2_pos | exact Hk]).
  rewrite (ulp_exp_pos x Hx').
  pose proof (Qlog2_ge k x Hx' Hk). lia.
Qed.

Lemma on_grid_Z e K : e <= 0 -> on_grid e (inject_Z K).
Proof.
  intros He. exists (K * 2 ^ (- e)).
  rewrite inject_Z_mult, <- Qmult_assoc, <- Qpow2_Z by lia.
  rewrite <- Qpow2_add. replace (- e + e) with 0 by lia.
  change (Qpow2 0) with 1%Q. ring.
Qed.


(** Below a grid point, a grid point is at least one step lower. *)
Lemma on_grid_lt e x B :
  on_grid e x -> on_grid e B -> (x < B)%Q -> (x <= B - Qpow2 e)%Q.
Proof.
  intros [N HN] [M HM] Hlt.
  assert (HNM : N < M).
  { rewrite HN, HM in Hlt. apply Qmult_lt_r in Hlt; [|apply Qpow2_pos].
    now rewrite <- Zlt_Qlt in Hlt. }
  assert (H1 : N <= M - 1) by lia. rewrite Zle_Qle in H1.
  rewrite HN, HM.
  setoid_replace (inject_Z M * Qpow2 e - Qpow2 e)%Q
    with (inject_Z (M - 1) * Qpow2 e)%Q.
  - apply Qmult_le_compat_r; [exact H1 | apply Qlt_le_weak, Qpow2_pos].
  - unfold Z.sub. rewrite inject_Z_plus, inject_Z_opp. ring.
Qed.

Lemma Qfloor_nonneg q : (0 <= q)%Q -> 0 <= Qfloor q.
Proof.
  intros H. apply (Qfloor_resp_le 0) in H. exact H.
Qed.

Lemma Qfloor_lt q K : (q < inject_Z K)%Q -> Qfloor q < K.
Proof.
  intros H. rewrite Zlt_Qlt. eapply Qle_lt_trans; [apply Qfloor_le | exact H].
Qed.

(** [x % d] for a non-negative [x] and a positive integer [d]. *)
Lemma fmod_nonneg x (d : Z) :
  (0 <= x)%Q -> 0 < d ->
  (fmod x (inject_Z d) == x - inject_Z (d * Qfloor (x / inject_Z d)))%Q
  /\ (0 <= fmod x (inject_Z d))%Q
  /\ (fmod x (inject_Z d) < inject_Z d)%Q
  /\ (fmod x (inject_Z d) <= x)%Q.
Proof.
  intros Hx Hd.
  assert (Hd' : (0 < inject_Z d)%Q) by (now rewrite (Zlt_Qlt 0 d) in Hd).
  assert (Hd0 : ~ (inject_Z d == 0)%Q).
  { intros E. rewrite E in Hd'. discriminate. }
  assert (Hdiv : (0 <= x / inject_Z d)%Q).
  { apply Qle_shift_div_l; [exact Hd'|]. now rewrite Qmult_0_l. }
  pose proof (Qfloor_nonneg _ Hdiv) as Hf0.
  unfold fmod, Qtrunc.
  assert (E : Qle_bool 0 (x / inject_Z d) = true) by now apply Qle_bool_iff.
  rewrite E. set (F := Qfloor (x / inject_Z d)) in *.
  assert (Hxd : (inject_Z d * (x / inject_Z d) == x)%Q)
    by (apply Qmult_div_r; exact Hd0).
  assert (Hlo : (inject_Z d * inject_Z F <= x)%Q).
  { apply Qle_trans with (inject_Z d * (x / inject_Z d))%Q.
    - apply Qmult_le_l; [exact Hd'|]. apply Qfloor_le.
    - rewrite Hxd. apply Qle_refl. }
  assert (Hhi : (x < inject_Z d * inject_Z (F + 1))%Q).
  { apply Qle_lt_trans with (inject_Z d * (x / inject_Z d))%Q.
    - rewrite Hxd. apply Qle_refl.
    - apply Qmult_lt_l; [exact Hd'|]. apply Qlt_floor. }
  rewrite inject_Z_plus in Hhi.
  assert (HdF : (0 <= inject_Z d * inject_Z F)%Q).
  { apply Qmult_le_0_compat; [apply Qlt_le_weak, Hd'|].
    now rewrite (Zle_Qle 0 F) in Hf0. }
  split; [now rewrite inject_Z_mult|]. split; [|split].
  - apply (Qplus_le_l _ _ (inject_Z d * inject_Z F)).
    setoid_replace (x - inject_Z d * inject_Z F + inject_Z d * inject_Z F)%Q
      with x by ring.
    now rewrite Qplus_0_l.
  - apply (Qplus_lt_l _ _ (inject_Z d * inject_Z F)).
    setoid_replace (x - inject_Z d * inject_Z F + inject_Z d * inject_Z F)%Q
      with x by ring.
    setoid_replace (inject_Z d + inject_Z d * inject_Z F)%Q
      with (inject_Z d * (inject_Z F + inject_Z 1))%Q by ring.
    exact Hhi.
  - apply (Qplus_le_l _ _ (inject_Z d * inject_Z F)).
    setoid_replace (x - inject_Z d * inject_Z F + inject_Z d * inject_Z F)%Q
      with (x + 0)%Q by ring.
    apply Qplus_le_r. exact HdF.
Qed.


Lemma Qdiv_nonneg a b : (0 <= a)%Q -> (0 < b)%Q -> (0 <= a / b)%Q.
Proof.
  intros Ha Hb. apply Qle_shift_div_l; [exact Hb|]. now rewrite Qmult_0_l.
Qed.

Lemma seconds_bound x :
  (0 <= x)%Q -> 0 <= floor (fmod x 60%Q) < 60.
Proof.
  intros H0. unfold floor.
  destruct (fmod_nonneg x 60 H0 ltac:(lia)) as (_ & Hr0 & Hr1 & _).
  split; [apply Qfloor_nonneg, Hr0 | apply Qfloor_lt, Hr1].
Qed.







Lemma pad2_digits n :
  0 <= n < 100 -> padStart 2 "0" (toString n) = two_digits n.
Proof.
  intros Hn.
  assert (H : forallb (fun k => String.eqb
                         (padStart 2 "0" (toString (Z.of_nat k)))
                         (two_digits (Z.of_nat k)))
                      (seq 0 100) = true) by (vm_compute; reflexivity).
  rewrite forallb_forall in H. specialize (H (Z.to_nat n)).
  rewrite Z2Nat.id in H by lia. apply String.eqb_eq, H, in_seq. lia.
Qed.

Lemma pad3_digits n :
  0 <= n < 1000 -> padStart 3 "0" (toString n) = three_digits n.
Proof.
  intros Hn.
  assert (H : forallb (fun k => String.eqb
                         (padStart 3 "0" (toString (Z.of_nat k)))
                         (three_digits (Z.of_nat k)))
                      (seq 0 1000) = true) by (vm_compute; reflexivity).
  rewrite forallb_forall in H. specialize (H (Z.to_nat n)).
  rewrite Z2Nat.id in H by lia. apply String.eqb_eq, H, in_seq. lia.
Qed.



(** ** More on binary64 rounding *)

Lemma Qlog2_unique k q :
  (Qpow2 k <= q)%Q -> (q < Qpow2 (k + 1))%Q -> Qlog2 q = k.
Proof.
  intros Hl Hu.
  assert (Hq : (0 < q)%Q)
    by (eapply Qlt_le_trans; [apply Qpow2_pos | exact Hl]).
  pose proof (Qlog2_ge k q Hq Hl). pose proof (Qlog2_lt (k + 1) q Hq Hu).
  lia.
Qed.

Lemma Qlog2_comp q q' : (0 < q)%Q -> (q == q')%Q -> Qlog2 q = Qlog2 q'.
Proof.
  intros Hq E. symmetry.
  destruct (Qlog2_spec q Hq) as [Hl Hu].
  apply Qlog2_unique; now rewrite <- E.
Qed.

Lemma Qabs_nonzero_pos q : ~ (q == 0)%Q -> (0 < Qabs q)%Q.
Proof.
  destruct q as [n d]. unfold Qeq, Qlt, Qabs. cbn.
  rewrite !Z.mul_1_r. lia.
Qed.

Lemma ulp_exp_comp q q' :
  ~ (q == 0)%Q -> (q == q')%Q -> ulp_exp q = ulp_exp q'.
Proof.
  intros Hq E. unfold ulp_exp. f_equal. f_equal.
  apply Qlog2_comp; [now apply Qabs_nonzero_pos | now rewrite E].
Qed.

Lemma rne_comp q q' : (q == q')%Q -> rne q = rne q'.
Proof.
  intros E. unfold rne. rewrite (Qfloor_comp _ _ E).
  now rewrite E.
Qed.

(** Rounding does not depend on how the rational is written. *)
Lemma round64_comp q q' : (q == q')%Q -> (round64 q == round64 q')%Q.
Proof.
  intros E. destruct (Qeq_dec q 0) as [Z|NZ].
  - rewrite (round64_zero q Z), (round64_zero q'); [reflexivity|].
    now rewrite <- E.
  - rewrite (round64_nonzero q NZ), (round64_nonzero q').
    2:{ now rewrite <- E. }
    rewrite <- (ulp_exp_comp q q' NZ E).
    rewrite (rne_comp (q / Qpow2 (ulp_exp q)) (q' / Qpow2 (ulp_exp q))).
    + reflexivity.
    + unfold Qdiv. apply Qmult_comp; [exact E | reflexivity].
Qed.

Lemma is_double_comp q q' : (q == q')%Q -> is_double q -> is_double q'.
Proof.
  intros E [[M HM] Hb]. split.
  - destruct (Qeq_dec q 0) as [Z|NZ].
    + exists 0. rewrite Qmult_0_l, <- E. exact Z.
    + exists M. rewrite <- (ulp_exp_comp q q' NZ E), <- E. exact HM.
  - now rewrite <- E.
Qed.

(** A non-negative integer below [2^53], scaled by a power of two within
    the exponent range, is a binary64 value. *)
Lemma dyadic_is_double M e :
  0 <= M < 2 ^ 53 -> -1074 <= e <= 971 ->
  is_double (inject_Z M * Qpow2 e).
Proof.
  intros HM He. set (x := (inject_Z M * Qpow2 e)%Q).
  assert (Hx0 : (0 <= x)%Q).
  { apply Qmult_le_0_compat; [|apply Qlt_le_weak, Qpow2_pos].
    now rewrite (Zle_Qle 0 M) in HM. }
  assert (Hxu : (x < Qpow2 (53 + e))%Q).
  { unfold x. rewrite Qpow2_add. apply Qmult_lt_r; [apply Qpow2_pos|].
    rewrite Qpow2_Z by lia. rewrite <- Zlt_Qlt. lia. }
  split.
  - destruct (Qeq_dec x 0) as [Z|NZ].
    + exists 0. now rewrite Qmult_0_l.
    + assert (Hx : (0 < x)%Q).
      { apply Qle_lteq in Hx0 as [H|H]; [exact H|].
        symmetry in H. contradiction. }
      assert (Hu : ulp_exp x <= e).
      { rewrite (ulp_exp_pos x Hx).
        pose proof (Qlog2_lt (53 + e) x Hx Hxu). lia. }
      exists (M * 2 ^ (e - ulp_exp x)). unfold x at 1.
      rewrite (Qpow2_multiple e (ulp_exp x) Hu), inject_Z_mult. ring.
  - rewrite Qabs_pos by exact Hx0.
    eapply Qlt_le_trans; [exact Hxu|]. apply Qpow2_le. lia.
Qed.

Lemma Z_is_double n : 0 <= n < 2 ^ 53 -> is_double (inject_Z n).
Proof.
  intros H. apply (is_double_comp (inject_Z n * Qpow2 0)).
  - change (Qpow2 0) with 1%Q. ring.
  - apply dyadic_is_double; [exact H | lia].
Qed.

(** Rounding never crosses a positive binary64 value from above. *)
Lemma round64_ge q b :
  (0 < b)%Q -> (b <= q)%Q -> is_double b -> (b <= round64 q)%Q.
Proof.
  intros Hb Hbq Hd.
  assert (Hq : (0 < q)%Q) by (eapply Qlt_le_trans; eassumption).
  assert (NZ : ~ (q == 0)%Q).
  { intros E. rewrite E in Hq. discriminate. }
  rewrite (round64_nonzero q NZ).
  destruct (Qlog2_spec b Hb) as [Hbl Hbu].
  destruct (Qlog2_spec q Hq) as [Hql Hqu].
  assert (HL : Qlog2 b <= Qlog2 q).
  { apply Qlog2_ge; [exact Hq|]. eapply Qle_trans; eassumption. }
  destruct (Z.eq_dec (ulp_exp b) (ulp_exp q)) as [Ee|Ne].
  - destruct Hd as [[M HM] _]. rewrite Ee in HM. rewrite HM at 1.
    apply Qmult_le_compat_r; [|apply Qlt_le_weak, Qpow2_pos].
    rewrite <- Zle_Qle. apply rne_ge, Qdiv_pow2_ge. now rewrite <- HM.
  - rewrite (ulp_exp_pos b Hb), (ulp_exp_pos q Hq) in Ne.
    assert (He : ulp_exp q = Qlog2 q - 52)
      by (rewrite (ulp_exp_pos q Hq); lia).
    assert (HL' : Qlog2 b + 1 <= Qlog2 q) by lia.
    apply Qle_trans with (Qpow2 (Qlog2 q)).
    + apply Qlt_le_weak. eapply Qlt_le_trans; [exact Hbu|].
      now apply Qpow2_le.
    + rewrite He.
      rewrite (Qpow2_multiple (Qlog2 q) (Qlog2 q - 52)) at 1 by lia.
      apply Qmult_le_compat_r; [|apply Qlt_le_weak, Qpow2_pos].
      rewrite <- Zle_Qle. apply rne_ge, Qdiv_pow2_ge.
      rewrite <- (Qpow2_multiple (Qlog2 q) (Qlog2 q - 52)) by lia.
      exact Hql.
Qed.

(** Binary64 values are fixed points of the rounding. *)
Lemma round64_id b : (0 <= b)%Q -> is_double b -> (round64 b == b)%Q.
Proof.
  intros H0 Hd. apply Qle_antisym.
  - apply round64_le; [exact H0 | apply Qle_refl | exact Hd].
  - apply Qle_lteq in H0 as [H|H].
    + apply round64_ge; [exact H | apply Qle_refl | exact Hd].
    + rewrite (round64_zero b) by (symmetry; exact H).
      rewrite <- H. apply Qle_refl.
Qed.

(** ** Whole seconds *)

Lemma inject_Z_nonneg k : 0 <= k -> (0 <= inject_Z k)%Q.
Proof. intros H. rewrite Zle_Qle in H. exact H. Qed.

Lemma inject_Z_pos k : 0 < k -> (0 < inject_Z k)%Q.
Proof. intros H. rewrite Zlt_Qlt in H. exact H. Qed.

(** The quotient of two small non-negative integers is floored to the
    integer quotient: rounding cannot reach the next integer. *)
Lemma floor_div64_int a d :
  0 <= a < 2 ^ 40 -> 0 < d <= 4096 ->
  floor (div64 (inject_Z a) (inject_Z d)) = a / d.
Proof.
  intros Ha Hd. unfold floor, div64.
  set (k := a / d).
  assert (Hk : 0 <= k < 2 ^ 40).
  { unfold k. split; [apply Z.div_pos; lia|].
    apply Z.div_lt_upper_bound; [lia|]. nia. }
  assert (Hd' : (0 < inject_Z d)%Q) by (apply inject_Z_pos; lia).
  pose proof (Z.div_mod a d ltac:(lia)) as Hdm. fold k in Hdm.
  pose proof (Z.mod_pos_bound a d ltac:(lia)) as Hm.
  set (q := (inject_Z a / inject_Z d)%Q).
  assert (Hlo : (inject_Z k <= q)%Q).
  { apply Qle_shift_div_l; [exact Hd'|].
    rewrite <- inject_Z_mult, <- Zle_Qle. nia. }
  assert (Hhi : (q <= inject_Z ((k + 1) * 4096 - 1) * Qpow2 (-12))%Q).
  { apply Qle_shift_div_r; [exact Hd'|].
    apply (Qmult_le_r _ _ (Qpow2 12) (Qpow2_pos 10)).
    setoid_replace (inject_Z ((k + 1) * 4096 - 1) * Qpow2 (-12)
                    * inject_Z d * Qpow2 12)%Q
      with (inject_Z ((k + 1) * 4096 - 1) * inject_Z d
            * (Qpow2 (-12) * Qpow2 12))%Q by ring.
    rewrite <- Qpow2_add. change (Qpow2 (-12 + 12)) with 1%Q.
    rewrite Qmult_1_r. change (Qpow2 12) with (inject_Z 4096).
    rewrite <- !inject_Z_mult, <- Zle_Qle. nia. }
  assert (H0 : (0 <= q)%Q).
  { eapply Qle_trans; [|exact Hlo]. apply inject_Z_nonneg. lia. }
  apply Z.le_antisymm.
  - apply Z.lt_succ_r. apply Qfloor_lt.
    apply Qle_lt_trans
      with (inject_Z ((k + 1) * 4096 - 1) * Qpow2 (-12))%Q.
    + apply round64_le; [exact H0 | exact Hhi|].
      apply dyadic_is_double; lia.
    + apply (Qmult_lt_r _ _ (Qpow2 12) (Qpow2_pos 10)).
      rewrite <- Qmult_assoc, <- Qpow2_add.
      change (Qpow2 (-12 + 12)) with 1%Q. rewrite Qmult_1_r.
      change (Qpow2 12) with (inject_Z 4096).
      rewrite <- inject_Z_mult, <- Zlt_Qlt. lia.
  - destruct (Z.eq_dec k 0) as [E|NE].
    + rewrite E. apply Qfloor_nonneg, round64_nonneg, H0.
    + rewrite <- (Qfloor_Z k). apply Qfloor_resp_le.
      apply round64_ge; [|exact Hlo | apply Z_is_double; lia].
      apply inject_Z_pos. lia.
Qed.

(** [n % d] on non-negative integers is the integer remainder. *)
Lemma fmod_int n d :
  0 <= n -> 0 < d -> (fmod (inject_Z n) (inject_Z d) == inject_Z (n mod d))%Q.
Proof.
  intros Hn Hd.
  destruct (fmod_nonneg (inject_Z n) d) as (E & _); [|exact Hd|].
  { now apply inject_Z_nonneg. }
  rewrite E, <- Zdiv_Qdiv.
  unfold Qminus. rewrite <- inject_Z_opp, <- inject_Z_plus.
  apply inject_Z_injective. rewrite Z.mod_eq by lia. lia.
Qed.

Lemma floor_comp x y : (x == y)%Q -> floor x = floor y.
Proof. apply Qfloor_comp. Qed.

Lemma div64_comp x x' y : (x == x')%Q -> (div64 x y == div64 x' y)%Q.
Proof.
  intros E. unfold div64. apply round64_comp.
  unfold Qdiv. apply Qmult_comp; [exact E | reflexivity].
Qed.

(** X1: On a whole number of seconds below one hundred hours the time stamp
    shows the integer quotients and remainders, with no milliseconds. *)
Theorem formatSrtTime_whole_seconds n :
  0 <= n < 360000 ->
  formatSrtTime (inject_Z n)
  = srt_timestamp (n / 3600) ((n mod 3600) / 60) (n mod 60) 0.
Proof.
  intros Hn. unfold formatSrtTime. cbv zeta.
  assert (Hh : floor (div64 (inject_Z n) 3600%Q) = n / 3600).
  { apply (floor_div64_int n 3600); lia. }
  assert (Hm : floor (div64 (fmod (inject_Z n) 3600%Q) 60%Q)
               = (n mod 3600) / 60).
  { change 3600%Q with (inject_Z 3600).
    rewrite (floor_comp _ _ (div64_comp _ _ 60%Q
                               (fmod_int n 3600 ltac:(lia) ltac:(lia)))).
    pose proof (Z.mod_pos_bound n 3600 ltac:(lia)).
    apply (floor_div64_int (n mod 3600) 60); lia. }
  assert (Hs : floor (fmod (inject_Z n) 60%Q) = n mod 60).
  { change 60%Q with (inject_Z 60).
    rewrite (floor_comp _ _ (fmod_int n 60 ltac:(lia) ltac:(lia))).
    apply Qfloor_Z. }
  assert (Hms : floor (mul64 (fmod (inject_Z n) 1%Q) 1000%Q) = 0).
  { unfold mul64. rewrite round64_zero; [reflexivity|].
    change 1%Q with (inject_Z 1) at 1.
    rewrite (fmod_int n 1 ltac:(lia) ltac:(lia)), Z.mod_1_r. reflexivity. }
  rewrite Hh, Hm, Hs, Hms. unfold srt_timestamp.
  pose proof (Z.mod_pos_bound n 3600 ltac:(lia)).
  pose proof (Z.mod_pos_bound n 60 ltac:(lia)).
  rewrite !pad2_digits, pad3_digits; [reflexivity|lia|lia| |].
  - split; [apply Z.div_pos; lia | apply Z.div_lt_upper_bound; lia].
  - split; [apply Z.div_pos; lia | apply Z.div_lt_upper_bound; lia].
Qed.

Lemma formatSrtTime_whole_seconds_witness :
  formatSrtTime (inject_Z 3725) = srt_timestamp 1 2 5 0.
Proof. apply (formatSrtTime_whole_seconds 3725). lia. Defined.

(** ** Time stamps, field by field *)




















Example formatSrtTime_truncates_millis :
  formatSrtTime (round64 (inject_Z 4005 / 1000)) = "00:00:04,004"
  /\ formatSrtTime (round64 (inject_Z 1001 / 1000)) = "00:00:01,000"
  /\ formatSrtTime (round64 (inject_Z 4321987 / 1000)) = "01:12:01,987".
Proof. repeat split; vm_compute; reflexivity. Qed.

(** ** Durations *)

Lemma minutes_of_duration_bound x :
  is_double x -> (0 <= x)%Q -> (x < 6000)%Q ->
  0 <= floor (div64 x 60%Q) < 100.
Proof.
  intros Hd H0 Hx. unfold floor, div64. split.
  - apply Qfloor_nonneg, round64_nonneg, Qdiv_nonneg; [exact H0 | reflexivity].
  - apply Qfloor_lt.
    apply Qle_lt_trans with (100 - Qpow2 (-46))%Q; [|qlt_compute].
    apply round64_le.
    + apply Qdiv_nonneg; [exact H0 | reflexivity].
    + apply Qle_shift_div_r; [reflexivity|].
      destruct (Qlt_le_dec x (Qpow2 12)) as [Hs|Hl].
      * eapply Qle_trans; [apply Qlt_le_weak, Hs | qle_compute].
      * eapply Qle_trans; [|assert (H : (6000 - Qpow2 (12 - 52)
                                     <= (100 - Qpow2 (-46)) * 60)%Q)
                              by qle_compute; exact H].
        apply on_grid_lt; [|apply (on_grid_Z _ 6000); lia | exact Hx].
        apply is_double_on_grid; [exact Hd | exact Hl | lia].
    + apply is_doubleb_sound. vm_compute. reflexivity.
Qed.

(** X2: [formatDuration] prints the placeholder for zero; for a binary64
    number of seconds above zero and below one hundred minutes it prints
    [MM:SS], two digits each, seconds below 60; on whole seconds the
    fields are the integer quotient and remainder by 60. *)
Theorem formatDuration_format :
  (forall x, (x == 0)%Q -> formatDuration x = "--:--")
  /\ (forall x,
         is_double x -> (0 < x)%Q -> (x < 6000)%Q ->
         exists m s,
           m = floor (div64 x 60%Q) /\ s = floor (fmod x 60%Q)
           /\ 0 <= m < 100 /\ 0 <= s < 60
           /\ formatDuration x = two_digits m ++ ":" ++ two_digits s)
  /\ (forall n,
         0 < n < 6000 ->
         formatDuration (inject_Z n)
         = two_digits (n / 60) ++ ":" ++ two_digits (n mod 60)).
Proof.
  split; [|split].
  - intros x E. unfold formatDuration.
    apply Qeq_bool_iff in E. now rewrite E.
  - intros x Hd H0 Hx.
    assert (NZ : Qeq_bool x 0 = false).
    { destruct (Qeq_bool x 0) eqn:E; [|reflexivity].
      apply Qeq_bool_iff in E. rewrite E in H0. discriminate. }
    pose proof (minutes_of_duration_bound x Hd (Qlt_le_weak _ _ H0) Hx) as Hm.
    pose proof (seconds_bound x (Qlt_le_weak _ _ H0)) as Hs.
    do 2 eexists. do 2 (split; [reflexivity|]).
    split; [exact Hm|]. split; [exact Hs|].
    unfold formatDuration. rewrite NZ. cbv zeta.
    now rewrite !pad2_digits by lia.
  - intros n Hn.
    assert (NZ : Qeq_bool (inject_Z n) 0 = false).
    { destruct (Qeq_bool (inject_Z n) 0) eqn:E; [|reflexivity].
      apply Qeq_bool_iff in E. unfold Qeq in E. cbn in E. lia. }
    unfold formatDuration. rewrite NZ. cbv zeta.
    change 60%Q with (inject_Z 60).
    rewrite (floor_div64_int n 60) by lia.
    rewrite (floor_comp _ _ (fmod_int n 60 ltac:(lia) ltac:(lia))).
    unfold floor. rewrite Qfloor_Z.
    pose proof (Z.mod_pos_bound n 60 ltac:(lia)).
    rewrite !pad2_digits; [reflexivity|lia|].
    split; [apply Z.div_pos; lia | apply Z.div_lt_upper_bound; lia].
Qed.

Lemma formatDuration_format_witness :
  formatDuration (inject_Z 125) = two_digits 2 ++ ":" ++ two_digits 5
  /\ exists m s, formatDuration (1001 # 8)%Q
                 = two_digits m ++ ":" ++ two_digits s.
Proof.
  split.
  - apply (proj2 (proj2 formatDuration_format) 125). lia.
  - destruct (proj1 (proj2 formatDuration_format) (1001 # 8)%Q)
      as (m & s & _ & _ & _ & _ & H).
    + apply is_doubleb_sound. vm_compute. reflexivity.
    + reflexivity.
    + reflexivity.
    + exists m, s. exact H.
Defined.

(** ** Lookups and updates of the store *)

Lemma set_tasks_same state : set_tasks state (tasks state) = state.
Proof. now destruct state. Qed.

Lemma getTaskById_none_forall id state :
  getTaskById id state = None ->
  forall t, In t (tasks state) -> String.eqb (VideoTask.id t) id = false.
Proof. intros H t Ht. exact (find_none _ _ H t Ht). Qed.

Lemma updateTask_absent id u now state :
  getTaskById id state = None -> updateTask id u now state = state.
Proof.
  intros H. unfold updateTask.
  transitivity (set_tasks state (tasks state)); [|apply set_tasks_same].
  f_equal.
  transitivity (map (fun t => t) (tasks state)); [|apply map_id].
  apply map_ext_in.
  intros t Ht. now rewrite (getTaskById_none_forall id state H t Ht).
Qed.

(** X3: An update addressed to an id that no task has changes nothing. *)
Theorem updateTask_unknown_id id u now state :
  getTaskById id state = None -> updateTask id u now state = state.
Proof.
  intros H. unfold updateTask.
  transitivity (set_tasks state (tasks state)); [|apply set_tasks_same].
  f_equal.
  transitivity (map (fun t => t) (tasks state)); [|apply map_id].
  apply map_ext_in.
  intros t Ht. now rewrite (getTaskById_none_forall id state H t Ht).
Qed.

Lemma updateTask_unknown_id_witness :
  updateTask "t9" cancelled_update 5
             (sample_state [sample_task "t1" processing 10%Q])
  = sample_state [sample_task "t1" processing 10%Q].
Proof. apply updateTask_unknown_id. reflexivity. Defined.

Lemma spread_id t u now :
  Partial.id u = None -> VideoTask.id (spread t u now) = VideoTask.id t.
Proof. intros H. cbn. now rewrite H. Qed.

Lemma find_updateTask id id' u now state :
  Partial.id u = None ->
  getTaskById id' (updateTask id u now state)
  = if String.eqb id' id
    then option_map (fun t => spread t u now) (getTaskById id state)
    else getTaskById id' state.
Proof.
  intros Hu. unfold getTaskById. rewrite updateTask_tasks.
  destruct (String.eqb id' id) eqn:E.
  - apply String.eqb_eq in E. subst id'.
    induction (tasks state) as [|t ts IH]; cbn; [reflexivity|].
    destruct (String.eqb (VideoTask.id t) id) eqn:Et.
    + now rewrite (spread_id t u now Hu), Et.
    + now rewrite Et.
  - induction (tasks state) as [|t ts IH]; cbn; [reflexivity|].
    destruct (String.eqb (VideoTask.id t) id) eqn:Et.
    + rewrite (spread_id t u now Hu).
      apply String.eqb_eq in Et. rewrite Et.
      now rewrite String.eqb_sym, E.
    + now rewrite IH.
Qed.

(** X4: Reading a task back after an update that carries no [id] key: the
    target reads as its old record with the updates spread over it, any
    other id reads as before. *)
Theorem getTaskById_updateTask id id' u now state :
  Partial.id u = None ->
  getTaskById id' (updateTask id u now state)
  = if String.eqb id' id
    then option_map (fun t => spread t u now) (getTaskById id state)
    else getTaskById id' state.
Proof.
  intros Hu. unfold getTaskById. rewrite updateTask_tasks.
  destruct (String.eqb id' id) eqn:E.
  - apply String.eqb_eq in E. subst id'.
    induction (tasks state) as [|t ts IH]; cbn; [reflexivity|].
    destruct (String.eqb (VideoTask.id t) id) eqn:Et.
    + now rewrite (spread_id t u now Hu), Et.
    + now rewrite Et.
  - induction (tasks state) as [|t ts IH]; cbn; [reflexivity|].
    destruct (String.eqb (VideoTask.id t) id) eqn:Et.
    + rewrite (spread_id t u now Hu).
      apply String.eqb_eq in Et. rewrite Et.
      now rewrite String.eqb_sym, E.
    + now rewrite IH.
Qed.

Lemma getTaskById_updateTask_witness :
  getTaskById "t1"
    (updateTask "t1" cancelled_update 5
       (sample_state [sample_task "t1" processing 10%Q]))
  = Some (spread (sample_task "t1" processing 10%Q) cancelled_update 5).
Proof.
  exact (getTaskById_updateTask "t1" "t1" cancelled_update 5
           (sample_state [sample_task "t1" processing 10%Q]) eq_refl).
Defined.

Lemma override_later {A : Type} (u2 u1 : option A) (old : A) :
  override u2 (override u1 old) = override (later_key u2 u1) old.
Proof. now destruct u2, u1. Qed.

Lemma spread_spread t u1 u2 now1 now2 :
  spread (spread t u1 now1) u2 now2 = spread t (spread_updates u1 u2) now2.
Proof.
  unfold spread, spread_updates. cbn. now rewrite !override_later.
Qed.

Lemma updateTask_compose id u1 u2 now1 now2 state :
  Partial.id u1 = None ->
  updateTask id u2 now2 (updateTask id u1 now1 state)
  = updateTask id (spread_updates u1 u2) now2 state.
Proof.
  intros Hu. unfold updateTask, set_tasks. cbn. f_equal.
  rewrite map_map. apply map_ext. intros t.
  destruct (String.eqb (VideoTask.id t) id) eqn:E.
  - rewrite (spread_id t u1 now1 Hu), E. apply spread_spread.
  - now rewrite E.
Qed.

(** X5: Two updates of the same task, the first with no [id] key, amount to
    one update with the second literal spread over the first at the
    later time. *)
Theorem updateTask_twice id u1 u2 now1 now2 state :
  Partial.id u1 = None ->
  updateTask id u2 now2 (updateTask id u1 now1 state)
  = updateTask id (spread_updates u1 u2) now2 state.
Proof.
  intros Hu. unfold updateTask, set_tasks. cbn. f_equal.
  rewrite map_map. apply map_ext. intros t.
  destruct (String.eqb (VideoTask.id t) id) eqn:E.
  - rewrite (spread_id t u1 now1 Hu), E. apply spread_spread.
  - now rewrite E.
Qed.

Lemma updateTask_twice_witness :
  updateTask "t1" cancelled_update 6
    (updateTask "t1" (status_update paused) 5
       (sample_state [sample_task "t1" processing 10%Q]))
  = updateTask "t1" (spread_updates (status_update paused) cancelled_update)
      6 (sample_state [sample_task "t1" processing 10%Q]).
Proof. apply updateTask_twice. reflexivity. Defined.

(** X6: Updates of two different tasks, neither with an [id] key, can be
    applied in either order. *)
Theorem updateTask_commute i j u v now now' state :
  i <> j -> Partial.id u = None -> Partial.id v = None ->
  updateTask i u now (updateTask j v now' state)
  = updateTask j v now' (updateTask i u now state).
Proof.
  intros Hij Hu Hv. unfold updateTask, set_tasks. cbn. f_equal.
  rewrite !map_map. apply map_ext. intros t.
  destruct (String.eqb (VideoTask.id t) j) eqn:Ej;
    destruct (String.eqb (VideoTask.id t) i) eqn:Ei;
    rewrite ?spread_id by assumption; rewrite ?Ei, ?Ej; try reflexivity.
  apply String.eqb_eq in Ei, Ej. congruence.
Qed.

Lemma updateTask_commute_witness :
  let st := sample_state [sample_task "t1" processing 10%Q;
                          sample_task "t2" pending 0%Q] in
  updateTask "t1" cancelled_update 6
    (updateTask "t2" (status_update processing) 5 st)
  = updateTask "t2" (status_update processing) 5
      (updateTask "t1" cancelled_update 6 st).
Proof.
  intro st.
  apply updateTask_commute; [discriminate | reflexivity | reflexivity].
Defined.

(** ** Adding and removing tasks *)

(** X7: [addTask] does not check for an id already in use: a lookup keeps
    returning the task stored first, and the new task is found only when
    its id was free. *)
Theorem getTaskById_addTask id task state :
  getTaskById id (addTask task state)
  = match getTaskById id state with
    | Some t => Some t
    | None => if String.eqb (VideoTask.id task) id then Some task else None
    end.
Proof.
  unfold getTaskById, addTask. cbn.
  induction (tasks state) as [|t ts IH]; cbn; [reflexivity|].
  now destruct (String.eqb (VideoTask.id t) id).
Qed.

Lemma find_filter_neg id id' (ts : list VideoTask.t) :
  find (fun task => String.eqb (VideoTask.id task) id')
       (filter (fun task => negb (String.eqb (VideoTask.id task) id)) ts)
  = if String.eqb id' id then None
    else find (fun task => String.eqb (VideoTask.id task) id') ts.
Proof.
  induction ts as [|t ts IH]; cbn.
  - now destruct (String.eqb id' id).
  - destruct (String.eqb (VideoTask.id t) id) eqn:Et; cbn.
    + rewrite IH. destruct (String.eqb id' id) eqn:E; [reflexivity|].
      apply String.eqb_eq in Et. rewrite Et, String.eqb_sym, E. reflexivity.
    + rewrite IH. destruct (String.eqb id' id) eqn:E.
      * apply String.eqb_eq in E. subst id'. now rewrite Et.
      * reflexivity.
Qed.

Lemma removeTask_find id id' state :
  getTaskById id' (removeTask id state)
  = (if String.eqb id' id then None else getTaskById id' state)
  /\ selectedTaskId (removeTask id state) <> Some id
  /\ (selectedTaskId state <> Some id ->
      selectedTaskId (removeTask id state) = selectedTaskId state).
Proof.
  split; [apply find_filter_neg|]. unfold removeTask. cbn. split.
  - destruct (selectedTaskId state) as [sel|]; [|discriminate].
    destruct (String.eqb sel id) eqn:E; [discriminate|].
    apply String.eqb_neq in E. congruence.
  - intros H. destruct (selectedTaskId state) as [sel|]; [|reflexivity].
    destruct (String.eqb sel id) eqn:E; [|reflexivity].
    apply String.eqb_eq in E. congruence.
Qed.

(** X8: After [removeTask] the id is gone (every task that carried it, when
    there were several), the other ids read as before, and the selection
    never points at the removed id. *)
Theorem removeTask_lookup id id' state :
  getTaskById id' (removeTask id state)
  = (if String.eqb id' id then None else getTaskById id' state)
  /\ selectedTaskId (removeTask id state) <> Some id
  /\ (selectedTaskId state <> Some id ->
      selectedTaskId (removeTask id state) = selectedTaskId state).
Proof.
  split; [apply find_filter_neg|]. unfold removeTask. cbn. split.
  - destruct (selectedTaskId state) as [sel|]; [|discriminate].
    destruct (String.eqb sel id) eqn:E; [discriminate|].
    apply String.eqb_neq in E. congruence.
  - intros H. destruct (selectedTaskId state) as [sel|]; [|reflexivity].
    destruct (String.eqb sel id) eqn:E; [|reflexivity].
    apply String.eqb_eq in E. congruence.
Qed.

Lemma filter_all {A : Type} (f : A -> bool) (l : list A) :
  (forall a, In a l -> f a = true) -> filter f l = l.
Proof.
  induction l as [|a l IH]; intros H; cbn; [reflexivity|].
  rewrite (H a (or_introl eq_refl)). f_equal. apply IH.
  intros b Hb. apply H. now right.
Qed.

(** X9: Removing a task right after adding it undoes the addition: the
    store is the one [removeTask] gives without the addition, and the
    original store when the id was free and not selected. *)
Theorem removeTask_addTask task state :
  removeTask (VideoTask.id task) (addTask task state)
  = removeTask (VideoTask.id task) state
  /\ (getTaskById (VideoTask.id task) state = None ->
      selectedTaskId state <> Some (VideoTask.id task) ->
      removeTask (VideoTask.id task) (addTask task state) = state).
Proof.
  assert (H1 : removeTask (VideoTask.id task) (addTask task state)
               = removeTask (VideoTask.id task) state).
  { unfold removeTask, addTask. cbn. f_equal.
    rewrite filter_app. cbn. rewrite String.eqb_refl. cbn.
    apply app_nil_r. }
  split; [exact H1|]. intros Hnone Hsel. rewrite H1.
  destruct state as [ts sel proc]. unfold removeTask. cbn in *. f_equal.
  - apply filter_all. intros t Ht.
    now rewrite (find_none _ _ Hnone t Ht).
  - destruct sel as [s|]; [|reflexivity].
    destruct (String.eqb s (VideoTask.id task)) eqn:E; [|reflexivity].
    apply String.eqb_eq in E. congruence.
Qed.

Lemma removeTask_addTask_witness :
  let st := sample_state [sample_task "t1" processing 10%Q] in
  removeTask "t2" (addTask (sample_task "t2" pending 0%Q) st) = st.
Proof.
  intro st.
  apply (proj2 (removeTask_addTask (sample_task "t2" pending 0%Q) st));
    [reflexivity | discriminate].
Defined.

(** ** Clearing finished tasks *)

Lemma status_eqb_eq a b : status_eqb a b = true <-> a = b.
Proof. destruct a, b; cbn; split; congruence. Qed.

Lemma filter_filter_comm {A : Type} (f g : A -> bool) (l : list A) :
  filter f (filter g l) = filter (fun a => f a && g a) l.
Proof.
  induction l as [|a l IH]; cbn; [reflexivity|].
  destruct (g a); cbn; destruct (f a); cbn; now rewrite IH.
Qed.

(** X10: [clearCompleted] keeps exactly the tasks that are not completed,
    failed or cancelled, in their order; it leaves the pending and the
    active tasks as they are, empties the completed ones, and clearing
    again changes nothing.  The selection is not touched. *)
Theorem clearCompleted_keeps_unfinished state :
  (forall t, In t (tasks (clearCompleted state))
             <-> In t (tasks state)
                 /\ is_terminal (VideoTask.status t) = false)
  /\ getActiveTasks (clearCompleted state) = getActiveTasks state
  /\ getPendingTasks (clearCompleted state) = getPendingTasks state
  /\ getCompletedTasks (clearCompleted state) = []
  /\ clearCompleted (clearCompleted state) = clearCompleted state
  /\ selectedTaskId (clearCompleted state) = selectedTaskId state.
Proof.
  unfold clearCompleted, getActiveTasks, getPendingTasks, getCompletedTasks.
  cbn. repeat split.
  - apply filter_In in H. apply H.
  - apply filter_In in H. destruct H as [_ H].
    now destruct (is_terminal (VideoTask.status t)).
  - intros [H1 H2]. apply filter_In. split; [exact H1|]. now rewrite H2.
  - rewrite filter_filter_comm. apply filter_ext. intros t.
    now destruct (VideoTask.status t).
  - rewrite filter_filter_comm. apply filter_ext. intros t.
    now destruct (VideoTask.status t).
  - rewrite filter_filter_comm.
    induction (tasks state) as [|t ts IH]; cbn; [reflexivity|].
    now destruct (VideoTask.status t).
  - unfold set_tasks. cbn. f_equal.
    rewrite filter_filter_comm. apply filter_ext. intros t.
    now destruct (is_terminal (VideoTask.status t)).
Qed.

(** X11: The queue panel hides completed tasks only: every task the store
    counts as active is listed, and so is every paused, failed or
    cancelled one; the panel is empty exactly when all tasks are
    completed. *)
Theorem activeTasks_panel state :
  (forall t, In t (activeTasks (tasks state))
             <-> In t (tasks state) /\ VideoTask.status t <> completed)
  /\ getActiveTasks state
     = filter (fun task => status_eqb (VideoTask.status task) processing
                           || status_eqb (VideoTask.status task) pending)
              (activeTasks (tasks state))
  /\ (activeTasks (tasks state) = []
      <-> getCompletedTasks state = tasks state).
Proof.
  unfold activeTasks, getActiveTasks, getCompletedTasks. split; [|split].
  - intros t. rewrite filter_In. split; intros [H1 H2]; split; try exact H1.
    + intros E. rewrite E in H2. discriminate.
    + destruct (status_eqb (VideoTask.status t) completed) eqn:E;
        [|reflexivity].
      apply status_eqb_eq in E. contradiction.
  - rewrite filter_filter_comm. apply filter_ext. intros t.
    now destruct (VideoTask.status t).
  - induction (tasks state) as [|t ts IH]; cbn; [tauto|].
    destruct (status_eqb (VideoTask.status t) completed) eqn:E; cbn.
    + split; intros H.
      * f_equal. now apply IH.
      * apply IH. injection H as H. exact H.
    + split; [discriminate|]. intros H. exfalso.
      assert (Hl : (List.length (filter
                      (fun task => status_eqb (VideoTask.status task)
                                              completed) ts)
                    <= List.length ts)%nat) by apply filter_length_le.
      rewrite H in Hl. cbn in Hl. lia.
Qed.

(** ** Selection *)

Lemma getTaskById_some_iff id state :
  getTaskById id state <> None <-> In id (map VideoTask.id (tasks state)).
Proof.
  unfold getTaskById. induction (tasks state) as [|t ts IH]; cbn.
  - tauto.
  - destruct (String.eqb (VideoTask.id t) id) eqn:E.
    + apply String.eqb_eq in E. split; [now left | discriminate].
    + apply String.eqb_neq in E. rewrite IH. tauto.
Qed.

Lemma on_event_keeps_selection now ev state :
  selectedTaskId (fst (on_event now ev state)) = selectedTaskId state.
Proof.
  destruct ev; cbn [on_event fst]; try reflexivity.
  destruct (handleSubtitleAdded_cases taskId subtitle now state)
    as [-> | [l ->]]; reflexivity.
Qed.

Lemma selection_valid_ids state state' :
  selectedTaskId state' = selectedTaskId state ->
  (forall id, In id (map VideoTask.id (tasks state)) ->
              In id (map VideoTask.id (tasks state'))) ->
  selection_valid state -> selection_valid state'.
Proof.
  unfold selection_valid. intros Hs Hi. rewrite Hs.
  destruct (selectedTaskId state) as [id|]; [|trivial].
  rewrite !getTaskById_some_iff. apply Hi.
Qed.

(** X12: A selection that points at a stored task keeps doing so under
    [addTask], [removeTask], [clearAll], every [updateTask] without an
    [id] key and every websocket event. *)
Theorem selection_stays_valid state :
  selection_valid state ->
  (forall task, selection_valid (addTask task state))
  /\ (forall id, selection_valid (removeTask id state))
  /\ selection_valid (clearAll state)
  /\ (forall id u now,
         Partial.id u = None -> selection_valid (updateTask id u now state))
  /\ (forall now ev, selection_valid (fst (on_event now ev state))).
Proof.
  intros Hv. split; [|split; [|split; [|split]]].
  - intros task. apply (selection_valid_ids state); [reflexivity| |exact Hv].
    intros id. unfold addTask. cbn. rewrite map_app, in_app_iff. tauto.
  - intros id. unfold selection_valid in *.
    destruct (removeTask_find id id state) as (_ & Hne & Hkeep).
    destruct (selectedTaskId (removeTask id state)) as [sel|] eqn:Es;
      [|trivial].
    destruct (removeTask_find id sel state) as (Hl & _ & _).
    rewrite Hl. destruct (String.eqb sel id) eqn:E.
    + apply String.eqb_eq in E. congruence.
    + unfold removeTask in Es. cbn in Es.
      destruct (selectedTaskId state) as [sel0|]; [|discriminate].
      destruct (String.eqb sel0 id); [discriminate|].
      injection Es as <-. exact Hv.
  - exact I.
  - intros id u now Hu.
    apply (selection_valid_ids state); [reflexivity| |exact Hv].
    intros i. now rewrite (updateTask_keeps_ids id u now state Hu).
  - intros now ev.
    apply (selection_valid_ids state);
      [apply on_event_keeps_selection| |exact Hv].
    intros i. now rewrite on_event_keeps_ids.
Qed.

Lemma selection_stays_valid_witness :
  let st := setSelectedTask (Some "t1")
              (sample_state [sample_task "t1" processing 10%Q]) in
  selection_valid st
  /\ selection_valid (fst (on_event 3 (task_cancelled "t1") st)).
Proof.
  intro st.
  assert (Hv : selection_valid st) by discriminate.
  split; [exact Hv|].
  exact (proj2 (proj2 (proj2 (proj2 (selection_stays_valid st Hv))))
           3 (task_cancelled "t1")).
Defined.

(** [clearCompleted] is the exception: it keeps the selection and may
    remove the selected task. *)
Example clearCompleted_dangling_selection :
  let st := setSelectedTask (Some "t1")
              (sample_state [sample_task "t1" completed 100%Q]) in
  selection_valid st /\ ~ selection_valid (clearCompleted st).
Proof.
  split; [discriminate|]. intros H. apply H. reflexivity.
Qed.

(** ** The run/pause button of a task row *)

(** X13: The button turns a processing row into a pending one and a pending
    row into a processing one, for every stored task with the row's id;
    on a paused, completed, failed or cancelled row it does nothing.
    Pressing it again on the refreshed row gives the store of a single
    update that writes the first status back. *)
Theorem handleToggleStatus_toggles task now state :
  (VideoTask.status task <> processing ->
   VideoTask.status task <> pending ->
   handleToggleStatus task now state = state)
  /\ (forall k t,
         nth_error (tasks state) k = Some t ->
         VideoTask.id t = VideoTask.id task ->
         (VideoTask.status task = processing ->
          option_map VideoTask.status
            (nth_error (tasks (handleToggleStatus task now state)) k)
          = Some pending)
         /\ (VideoTask.status task = pending ->
             option_map VideoTask.status
               (nth_error (tasks (handleToggleStatus task now state)) k)
             = Some processing))
  /\ (forall row now',
         VideoTask.id row = VideoTask.id task ->
         (VideoTask.status task = processing
          /\ VideoTask.status row = pending)
         \/ (VideoTask.status task = pending
             /\ VideoTask.status row = processing) ->
         handleToggleStatus row now' (handleToggleStatus task now state)
         = updateTask (VideoTask.id task)
             (status_update (VideoTask.status task)) now' state).
Proof.
  split; [|split].
  - intros H1 H2. unfold handleToggleStatus.
    now destruct (VideoTask.status task).
  - intros k t Hk Hid.
    apply String.eqb_eq in Hid.
    split; intros Hs; unfold handleToggleStatus; rewrite Hs;
      rewrite updateTask_nth, Hk; cbn; now rewrite Hid.
  - intros row now' Hid [[Ht Hr]|[Ht Hr]]; unfold handleToggleStatus;
      rewrite Ht, Hr, Hid; now rewrite updateTask_compose.
Qed.

Lemma handleToggleStatus_toggles_witness :
  let t := sample_task "t1" processing 10%Q in
  let st := sample_state [t] in
  handleToggleStatus (sample_task "t1" pending 10%Q) 6
    (handleToggleStatus t 5 st)
  = updateTask "t1" (status_update processing) 6 st.
Proof.
  intros t st.
  apply (proj2 (proj2 (handleToggleStatus_toggles t 5 st))
           (sample_task "t1" pending 10%Q) 6 eq_refl).
  left. split; reflexivity.
Defined.

(** ** Events and the tasks they reach *)

Lemma handleSubtitleAdded_unknown taskId subtitle now state :
  getTaskById taskId state = None ->
  handleSubtitleAdded taskId subtitle now state = state.
Proof. intros H. unfold handleSubtitleAdded. now rewrite H. Qed.

(** X14: An event addressed to an id that no stored task has leaves the store
    as it is; it is still handed to the listeners. *)
Theorem on_event_unknown_task now ev id state :
  event_target ev = Some id ->
  getTaskById id state = None ->
  on_event now ev state = (state, [(local_name ev, ev)]).
Proof.
  intros Ht Hn.
  destruct ev; cbn in Ht; try discriminate; injection Ht as <-;
    cbn [on_event local_name]; f_equal;
    first [ apply handleSubtitleAdded_unknown; exact Hn
          | apply updateTask_absent; exact Hn ].
Qed.

Lemma on_event_unknown_task_witness :
  let st := sample_state [sample_task "t1" processing 10%Q] in
  on_event 4 (task_failed "t9" "boom") st
  = (st, [("failed", task_failed "t9" "boom")]).
Proof.
  intro st.
  exact (on_event_unknown_task 4 (task_failed "t9" "boom") "t9" st
           eq_refl eq_refl).
Defined.

Lemma updateTask_other id u now state k t :
  nth_error (tasks state) k = Some t ->
  VideoTask.id t <> id ->
  nth_error (tasks (updateTask id u now state)) k = Some t.
Proof.
  intros Hk Hne. rewrite updateTask_nth, Hk. cbn.
  apply String.eqb_neq in Hne. now rewrite Hne.
Qed.

(** X15: An event changes only the tasks it is addressed to: every task with
    another id, and every task when the event has no target, stays at
    its place unchanged. *)
Theorem on_event_other_tasks now ev state k t :
  nth_error (tasks state) k = Some t ->
  event_target ev <> Some (VideoTask.id t) ->
  nth_error (tasks (fst (on_event now ev state))) k = Some t.
Proof.
  intros Hk Hne.
  assert (Hu : forall id u, event_target ev = Some id ->
                 nth_error (tasks (updateTask id u now state)) k = Some t).
  { intros id u E. apply updateTask_other; [exact Hk|].
    intros Hid. apply Hne. now rewrite E, Hid. }
  destruct ev; cbn [on_event fst]; try exact Hk;
    try (unfold handleProgressUpdate; apply Hu; reflexivity).
  destruct (handleSubtitleAdded_cases taskId subtitle now state)
    as [-> | [l ->]]; [exact Hk | apply Hu; reflexivity].
Qed.

Lemma on_event_other_tasks_witness :
  let t2 := sample_task "t2" pending 0%Q in
  let st := sample_state [sample_task "t1" processing 10%Q; t2] in
  nth_error (tasks (fst (on_event 4 (task_failed "t1" "boom") st))) 1
  = Some t2.
Proof.
  intros t2 st.
  apply (on_event_other_tasks 4 (task_failed "t1" "boom") st 1 t2);
    [reflexivity | discriminate].
Defined.

(** X16: No event moves the selection, and [isProcessing] changes only when
    [all_tasks_completed] arrives, which clears it. *)
Theorem on_event_flags now ev state :
  selectedTaskId (fst (on_event now ev state)) = selectedTaskId state
  /\ isProcessing (fst (on_event now ev state))
     = match ev with
       | all_tasks_completed => false
       | _ => isProcessing state
       end.
Proof.
  split; [apply on_event_keeps_selection|].
  destruct ev; cbn [on_event fst]; try reflexivity.
  destruct (handleSubtitleAdded_cases taskId subtitle now state)
    as [-> | [l ->]]; reflexivity.
Qed.

(** ** Runs *)

Lemma on_event_emits now ev state :
  snd (on_event now ev state) = [(local_name ev, ev)].
Proof. now destruct ev. Qed.

Lemma run_app evs1 evs2 state :
  run (evs1 ++ evs2) state
  = (fst (run evs2 (fst (run evs1 state))),
     (snd (run evs1 state) ++ snd (run evs2 (fst (run evs1 state))))%list).
Proof.
  revert state. induction evs1 as [|[now ev] evs1 IH]; intros state.
  - cbn. now destruct (run evs2 state).
  - cbn [app run].
    destruct (on_event now ev state) as [s1 o1].
    rewrite (IH s1).
    destruct (run evs1 s1) as [s2 o2]. cbn.
    now rewrite app_assoc.
Qed.

(** X17: Every socket event is handed to the listeners exactly once, under
    its local name and in arrival order, whatever the store holds; and a
    run over two batches is the run over the first followed by the run
    over the second. *)
Theorem run_emits_each_event evs state :
  snd (run evs state) = map (fun p => (local_name (snd p), snd p)) evs
  /\ forall evs', run (evs ++ evs') state
                  = (fst (run evs' (fst (run evs state))),
                     (snd (run evs state)
                      ++ snd (run evs' (fst (run evs state))))%list).
Proof.
  split; [|intros evs'; apply run_app].
  revert state. induction evs as [|[now ev] evs IH]; intros state.
  - reflexivity.
  - cbn [run map snd].
    pose proof (on_event_emits now ev state) as He.
    destruct (on_event now ev state) as [s1 o1]. cbn in He. subst o1.
    specialize (IH s1). destruct (run evs s1) as [s2 o2].
    cbn in IH. subst o2. reflexivity.
Qed.

(** ** Completion and dropped arrivals *)

Lemma run_keeps_ids evs state :
  map VideoTask.id (tasks (fst (run evs state)))
  = map VideoTask.id (tasks state).
Proof.
  revert state. induction evs as [|[now ev] evs IH]; intros state;
    [reflexivity|].
  cbn [run]. pose proof (on_event_keeps_ids now ev state) as H1.
  destruct (on_event now ev state) as [s1 o1]. cbn in H1.
  specialize (IH s1). destruct (run evs s1) as [s2 o2]. cbn in *.
  congruence.
Qed.

Lemma nth_error_id_run evs state k t :
  nth_error (tasks state) k = Some t ->
  exists t1, nth_error (tasks (fst (run evs state))) k = Some t1
             /\ VideoTask.id t1 = VideoTask.id t.
Proof.
  intros Hk. pose proof (run_keeps_ids evs state) as Hi.
  apply (f_equal (fun l => nth_error l k)) in Hi.
  rewrite !nth_error_map, Hk in Hi. cbn in Hi.
  destruct (nth_error (tasks (fst (run evs state))) k) as [t1|];
    [|discriminate].
  exists t1. split; [reflexivity|]. cbn in Hi. congruence.
Qed.

(** X18: [task_completed] replaces the subtitles of its task by the list of
    the payload, whatever the [subtitle_added] arrivals before it built
    (the list is lost when the payload carries none); the task ends
    completed at 100, with [completedAt] set. *)
Theorem task_completed_replaces_subtitles arrivals now task state k t :
  nth_error (tasks state) k = Some t ->
  VideoTask.id t = VideoTask.id task ->
  exists t',
    nth_error
      (tasks (fst (run (map arrival_event arrivals
                        ++ [(now, task_completed task)]) state))) k
    = Some t'
    /\ VideoTask.subtitles t' = VideoTask.subtitles task
    /\ VideoTask.status t' = completed
    /\ VideoTask.progress t' = 100%Q
    /\ VideoTask.completedAt t' = Some now.
Proof.
  intros Hk Hid.
  destruct (nth_error_id_run (map arrival_event arrivals) state k t Hk)
    as (t1 & Hk1 & Hid1).
  rewrite run_app. cbn [fst run on_event].
  rewrite updateTask_nth, Hk1. cbn [option_map].
  assert (E : String.eqb (VideoTask.id t1) (VideoTask.id task) = true).
  { apply String.eqb_eq. congruence. }
  rewrite E. eexists. split; [reflexivity|]. repeat split.
Qed.

Lemma task_completed_replaces_subtitles_witness :
  let st := sample_state [sample_task "t1" processing 10%Q] in
  let done := sample_task "t1" completed 100%Q in
  exists t',
    nth_error
      (tasks (fst (run (map arrival_event sample_arrivals
                        ++ [(20, task_completed done)]) st))) 0
    = Some t'
    /\ VideoTask.subtitles t' = None.
Proof.
  intros st done.
  destruct (task_completed_replaces_subtitles sample_arrivals 20 done st 0
              (sample_task "t1" processing 10%Q) eq_refl eq_refl)
    as (t' & H1 & H2 & _).
  exists t'. split; [exact H1 | exact H2].
Defined.

Lemma find_id_some (i : Z) (l : list SubtitleEntry.t) :
  In i (map SubtitleEntry.id l) ->
  exists s, find (fun s => Z.eqb (SubtitleEntry.id s) i) l = Some s.
Proof.
  induction l as [|a l IH]; cbn; [tauto|].
  intros [H|H].
  - rewrite H, Z.eqb_refl. eauto.
  - destruct (Z.eqb (SubtitleEntry.id a) i); eauto.
Qed.

(** X19: A [subtitle_added] arrival is dropped, leaving the store as it is,
    when the payload has no subtitle object, when its start or its end
    is not a number, or when the task already lists an entry with the
    same id (whatever state that list is in). *)
Theorem subtitle_added_dropped taskId now state :
  handleSubtitleAdded taskId None now state = state
  /\ (forall raw,
         number_or (RawSubtitle.startTime raw) (RawSubtitle.start raw) = None
         \/ number_or (RawSubtitle.endTime raw) (RawSubtitle.end_ raw) = None ->
         handleSubtitleAdded taskId (Some raw) now state = state)
  /\ (forall raw task,
         getTaskById taskId state = Some task ->
         In (RawSubtitle.id raw)
            (map SubtitleEntry.id (or_empty (VideoTask.subtitles task))) ->
         handleSubtitleAdded taskId (Some raw) now state = state).
Proof.
  unfold handleSubtitleAdded. split; [|split].
  - now destruct (getTaskById taskId state).
  - intros raw H. destruct (getTaskById taskId state); [|reflexivity].
    destruct H as [-> | ->]; [reflexivity|].
    now destruct (number_or _ _).
  - intros raw task Hg Hin. rewrite Hg.
    destruct (number_or (RawSubtitle.startTime raw) _); [|reflexivity].
    destruct (number_or (RawSubtitle.endTime raw) _); [|reflexivity].
    cbv zeta. cbn [normalize SubtitleEntry.id].
    destruct (find_id_some _ _ Hin) as [s ->]. reflexivity.
Qed.

Lemma subtitle_added_dropped_witness :
  let st := fst (run (map arrival_event sample_arrivals)
                   (sample_state [sample_task "t1" processing 10%Q])) in
  handleSubtitleAdded "t1" (Some (sample_raw 2 7%Q 8%Q)) 30 st = st.
Proof.
  intro st.
  destruct (subtitle_added_dropped "t1" 30 st) as (_ & _ & H).
  refine (H (sample_raw 2 7%Q 8%Q) _ eq_refl _).
  vm_compute. right. left. reflexivity.
Defined.

(** ** Arrival order *)

Lemma Qle_bool_total_neq x y :
  ~ (x == y)%Q -> Qle_bool x y = negb (Qle_bool y x).
Proof.
  intros Hne.
  destruct (Qle_bool x y) eqn:E1, (Qle_bool y x) eqn:E2; try reflexivity.
  - apply Qle_bool_iff in E1, E2. exfalso. apply Hne.
    now apply Qle_antisym.
  - exfalso. destruct (Qlt_le_dec x y) as [H|H].
    + apply Qlt_le_weak, Qle_bool_iff in H. congruence.
    + apply Qle_bool_iff in H. congruence.
Qed.

Lemma Qle_bool_trans x y z :
  Qle_bool x y = true -> Qle_bool y z = true -> Qle_bool x z = true.
Proof.
  rewrite !Qle_bool_iff. apply Qle_trans.
Qed.

Lemma Qle_bool_false_lt x y :
  Qle_bool x y = false -> Qle_bool y x = true.
Proof.
  intros H. apply Qle_bool_iff. apply Qlt_le_weak, Qnot_le_lt.
  intros H'. apply Qle_bool_iff in H'. congruence.
Qed.

(** Two entries with different start times can be inserted in either
    order. *)
Lemma insert_by_start_comm a b l :
  ~ (SubtitleEntry.startTime a == SubtitleEntry.startTime b)%Q ->
  insert_by_start a (insert_by_start b l)
  = insert_by_start b (insert_by_start a l).
Proof.
  intros Hne.
  assert (Hne' : ~ (SubtitleEntry.startTime b == SubtitleEntry.startTime a)%Q)
    by (intros E; apply Hne; now symmetry).
  pose proof (Qle_bool_total_neq _ _ Hne) as Hab.
  induction l as [|s l IH]; cbn.
  - rewrite Hab. now destruct (Qle_bool (SubtitleEntry.startTime b) _).
  - destruct (Qle_bool (SubtitleEntry.startTime s)
                       (SubtitleEntry.startTime b)) eqn:Esb;
      destruct (Qle_bool (SubtitleEntry.startTime s)
                         (SubtitleEntry.startTime a)) eqn:Esa;
      repeat first [rewrite Esa | rewrite Esb | progress cbn].
    + now rewrite IH.
    + (* a < s <= b *)
      assert (E : Qle_bool (SubtitleEntry.startTime a)
                           (SubtitleEntry.startTime b) = true).
      { eapply Qle_bool_trans; [apply Qle_bool_false_lt, Esa | exact Esb]. }
      now rewrite E.
    + (* b < s <= a *)
      assert (E : Qle_bool (SubtitleEntry.startTime b)
                           (SubtitleEntry.startTime a) = true).
      { eapply Qle_bool_trans; [apply Qle_bool_false_lt, Esb | exact Esa]. }
      now rewrite E.
    + rewrite Hab.
      destruct (Qle_bool (SubtitleEntry.startTime b)
                         (SubtitleEntry.startTime a)); cbn;
        repeat first [rewrite Esa | rewrite Esb | progress cbn];
        reflexivity.
Qed.

Lemma existsb_insert_by_start (f : SubtitleEntry.t -> bool) n l :
  existsb f (insert_by_start n l) = f n || existsb f l.
Proof.
  induction l as [|s l IH]; cbn; [reflexivity|].
  destruct (Qle_bool _ _); cbn; [|reflexivity].
  rewrite IH. now destruct (f n), (f s).
Qed.

(** The subtitle lists of the store after [updateTask]. *)
Lemma updateTask_subtitles id u now state :
  map VideoTask.subtitles (tasks (updateTask id u now state))
  = map (fun t => if String.eqb (VideoTask.id t) id
                  then override (Partial.subtitles u) (VideoTask.subtitles t)
                  else VideoTask.subtitles t) (tasks state).
Proof.
  rewrite updateTask_tasks, map_map. apply map_ext. intros t.
  now destruct (String.eqb (VideoTask.id t) id).
Qed.

Lemma two_arrivals taskId state task ra sa ea rb sb eb n1 n2 :
  getTaskById taskId state = Some task ->
  task_subtitles_ok task ->
  number_or (RawSubtitle.startTime ra) (RawSubtitle.start ra) = Some sa ->
  number_or (RawSubtitle.endTime ra) (RawSubtitle.end_ ra) = Some ea ->
  number_or (RawSubtitle.startTime rb) (RawSubtitle.start rb) = Some sb ->
  number_or (RawSubtitle.endTime rb) (RawSubtitle.end_ rb) = Some eb ->
  is_double sa -> is_double sb ->
  RawSubtitle.id ra <> RawSubtitle.id rb ->
  map VideoTask.subtitles
      (tasks (handleSubtitleAdded taskId (Some rb) n2
                (handleSubtitleAdded taskId (Some ra) n1 state)))
  = let cur := or_empty (VideoTask.subtitles task) in
    let A := normalize ra sa ea in
    let B := normalize rb sb eb in
    match known_id (RawSubtitle.id ra) cur, known_id (RawSubtitle.id rb) cur
    with
    | true, true => map VideoTask.subtitles (tasks state)
    | true, false => with_list taskId state (insert_by_start B cur)
    | false, true => with_list taskId state (insert_by_start A cur)
    | false, false =>
        with_list taskId state (insert_by_start B (insert_by_start A cur))
    end.
Proof.
  intros Hget Hok Hsa Hea Hsb Heb Hda Hdb Hid. cbv zeta.
  unfold known_id, with_list.
  rewrite (handleSubtitleAdded_merge taskId ra n1 state task sa ea
             Hget Hok Hsa Hea Hda).
  set (cur := or_empty (VideoTask.subtitles task)).
  destruct (existsb (fun s => Z.eqb (SubtitleEntry.id s) (RawSubtitle.id ra))
                    cur) eqn:Ka.
  - rewrite (handleSubtitleAdded_merge taskId rb n2 state task sb eb
               Hget Hok Hsb Heb Hdb).
    fold cur.
    destruct (existsb (fun s => Z.eqb (SubtitleEntry.id s)
                                      (RawSubtitle.id rb)) cur);
      [reflexivity|].
    now rewrite updateTask_subtitles.
  - set (A := normalize ra sa ea).
    set (s1 := updateTask taskId (subtitles_update (insert_by_start A cur))
                 n1 state).
    set (task1 := spread task (subtitles_update (insert_by_start A cur)) n1).
    assert (Hget1 : getTaskById taskId s1 = Some task1).
    { unfold s1. rewrite find_updateTask by reflexivity.
      now rewrite String.eqb_refl, Hget. }
    assert (Hok1 : task_subtitles_ok task1).
    { unfold task_subtitles_ok, task1. cbn.
      apply insert_by_start_ok; [now apply or_empty_ok | exact Hda |].
      apply find_id_none. rewrite find_existsb in Ka.
      cbn [normalize SubtitleEntry.id A]. now destruct (find _ cur). }
    rewrite (handleSubtitleAdded_merge taskId rb n2 s1 task1 sb eb
               Hget1 Hok1 Hsb Heb Hdb).
    change (or_empty (VideoTask.subtitles task1))
      with (insert_by_start A cur).
    rewrite existsb_insert_by_start.
    cbn [normalize SubtitleEntry.id A].
    assert (E : Z.eqb (RawSubtitle.id ra) (RawSubtitle.id rb) = false)
      by now apply Z.eqb_neq.
    rewrite E. cbn [orb].
    destruct (existsb (fun s => Z.eqb (SubtitleEntry.id s)
                                      (RawSubtitle.id rb)) cur).
    + unfold s1. now rewrite updateTask_subtitles.
    + unfold s1. rewrite updateTask_compose by reflexivity.
      now rewrite updateTask_subtitles.
Qed.

(** X20: Two arrivals for the same task with different ids and different
    start times leave the same subtitle lists whichever comes first
    (only [updatedAt] may differ). *)
Theorem arrivals_commute taskId state task ra sa ea rb sb eb n1 n2 :
  getTaskById taskId state = Some task ->
  task_subtitles_ok task ->
  number_or (RawSubtitle.startTime ra) (RawSubtitle.start ra) = Some sa ->
  number_or (RawSubtitle.endTime ra) (RawSubtitle.end_ ra) = Some ea ->
  number_or (RawSubtitle.startTime rb) (RawSubtitle.start rb) = Some sb ->
  number_or (RawSubtitle.endTime rb) (RawSubtitle.end_ rb) = Some eb ->
  is_double sa -> is_double sb ->
  RawSubtitle.id ra <> RawSubtitle.id rb ->
  ~ (sa == sb)%Q ->
  map VideoTask.subtitles
      (tasks (fst (run [(n1, subtitle_added taskId (Some ra));
                        (n2, subtitle_added taskId (Some rb))] state)))
  = map VideoTask.subtitles
      (tasks (fst (run [(n1, subtitle_added taskId (Some rb));
                        (n2, subtitle_added taskId (Some ra))] state))).
Proof.
  intros Hget Hok Hsa Hea Hsb Heb Hda Hdb Hid Hne.
  cbn [run on_event fst].
  rewrite (two_arrivals taskId state task ra sa ea rb sb eb n1 n2)
    by auto.
  rewrite (two_arrivals taskId state task rb sb eb ra sa ea n1 n2)
    by auto.
  cbv zeta.
  destruct (known_id _ _), (known_id _ _); try reflexivity.
  rewrite (insert_by_start_comm (normalize rb sb eb) (normalize ra sa ea));
    [reflexivity|].
  cbn. intros E. apply Hne. now symmetry.
Qed.

Lemma arrivals_commute_witness :
  let st := sample_state [sample_task "t1" processing 10%Q] in
  let ra := sample_raw 2 3%Q (9 # 2)%Q in
  let rb := sample_raw 1 (1 # 2)%Q 2%Q in
  map VideoTask.subtitles
      (tasks (fst (run [(11, subtitle_added "t1" (Some ra));
                        (12, subtitle_added "t1" (Some rb))] st)))
  = map VideoTask.subtitles
      (tasks (fst (run [(11, subtitle_added "t1" (Some rb));
                        (12, subtitle_added "t1" (Some ra))] st))).
Proof.
  intros st ra rb.
  apply (arrivals_commute "t1" st (sample_task "t1" processing 10%Q)
           ra 3%Q (9 # 2)%Q rb (1 # 2)%Q 2%Q 11 12);
    try reflexivity; try exact I; try discriminate;
    apply is_doubleb_sound; vm_compute; reflexivity.
Defined.

(** ** Listeners *)

Lemma listeners_get_set e e' s m :
  listeners_get e' (listeners_set e s m)
  = if String.eqb e' e then Some s else listeners_get e' m.
Proof.
  induction m as [|[k s'] m IH]; cbn.
  - rewrite (String.eqb_sym e e'). reflexivity.
  - destruct (String.eqb k e) eqn:Ek; cbn.
    + apply String.eqb_eq in Ek. subst k.
      rewrite (String.eqb_sym e e'). now destruct (String.eqb e' e).
    + destruct (String.eqb k e') eqn:Ek'; [|exact IH].
      apply String.eqb_eq in Ek'. subst k. now rewrite Ek.
Qed.

Lemma listeners_set_set e s s' m :
  listeners_set e s (listeners_set e s' m) = listeners_set e s m.
Proof.
  induction m as [|[k s0] m IH]; cbn.
  - now rewrite String.eqb_refl.
  - destruct (String.eqb k e) eqn:Ek; cbn; rewrite Ek; [reflexivity|].
    now rewrite IH.
Qed.

Lemma listeners_set_same e s m :
  listeners_get e m = Some s -> listeners_set e s m = m.
Proof.
  induction m as [|[k s0] m IH]; cbn; [discriminate|].
  destruct (String.eqb k e) eqn:Ek.
  - intros H. injection H as ->. reflexivity.
  - intros H. now rewrite (IH H).
Qed.

Lemma existsb_eqb_In cb s : existsb (Nat.eqb cb) s = true <-> In cb s.
Proof.
  rewrite existsb_exists. split.
  - intros [x [Hx E]]. apply Nat.eqb_eq in E. now subst.
  - intros H. exists cb. split; [exact H | apply Nat.eqb_refl].
Qed.

Lemma set_add_In cb s : In cb (set_add cb s).
Proof.
  unfold set_add. destruct (existsb (Nat.eqb cb) s) eqn:E.
  - now apply existsb_eqb_In.
  - apply in_or_app. right. now left.
Qed.

Lemma set_add_idem cb s : set_add cb (set_add cb s) = set_add cb s.
Proof.
  unfold set_add at 1.
  now rewrite (proj2 (existsb_eqb_In cb (set_add cb s)) (set_add_In cb s)).
Qed.

Lemma set_add_NoDup cb s : NoDup s -> NoDup (set_add cb s).
Proof.
  intros H. unfold set_add. destruct (existsb (Nat.eqb cb) s) eqn:E;
    [exact H|].
  apply NoDup_app; [exact H | repeat constructor; intros [] |].
  intros x Hx [Hc|[]]. subst x.
  apply existsb_eqb_In in Hx. congruence.
Qed.

Lemma set_delete_NoDup cb s : NoDup s -> NoDup (set_delete cb s).
Proof. apply NoDup_filter. Qed.

Lemma set_delete_not_In cb s : ~ In cb (set_delete cb s).
Proof.
  unfold set_delete. intros H. apply filter_In in H as [_ H].
  now rewrite Nat.eqb_refl in H.
Qed.

Lemma set_delete_add cb s : ~ In cb s -> set_delete cb (set_add cb s) = s.
Proof.
  intros H. unfold set_add.
  destruct (existsb (Nat.eqb cb) s) eqn:E.
  - apply existsb_eqb_In in E. contradiction.
  - unfold set_delete. rewrite filter_app. cbn. rewrite Nat.eqb_refl. cbn.
    rewrite app_nil_r. apply filter_all. intros c Hc.
    destruct (Nat.eqb cb c) eqn:Ec; [|reflexivity].
    apply Nat.eqb_eq in Ec. subst c. contradiction.
Qed.

Lemma apply_op_nodup m op : sets_nodup m -> sets_nodup (apply_op m op).
Proof.
  intros Hm e s. destruct op as [ev cb|ev cb]; cbn; unfold on, off.
  - destruct (listeners_get ev m) as [s0|] eqn:G;
      rewrite listeners_get_set; destruct (String.eqb e ev); intros H;
      try (apply (Hm e s H)); injection H as <-; apply set_add_NoDup.
    + apply (Hm ev s0 G).
    + constructor.
  - destruct (listeners_get ev m) as [s0|] eqn:G; [|apply Hm].
    rewrite listeners_get_set. destruct (String.eqb e ev); intros H;
      [|apply (Hm e s H)].
    injection H as <-. apply set_delete_NoDup, (Hm ev s0 G).
Qed.

Lemma fold_ops_nodup ops m :
  sets_nodup m -> sets_nodup (fold_left apply_op ops m).
Proof.
  revert m. induction ops as [|op ops IH]; intros m Hm; [exact Hm|].
  cbn. apply IH, apply_op_nodup, Hm.
Qed.

Lemma listeners_after_nodup ops : sets_nodup (listeners_after ops).
Proof. apply fold_ops_nodup. intros e s H. discriminate. Qed.

Lemma emit_calls_on e e' cb m :
  emit_calls e' (on e cb m)
  = if String.eqb e' e then set_add cb (emit_calls e m)
    else emit_calls e' m.
Proof.
  unfold emit_calls, on.
  destruct (listeners_get e m) as [s|] eqn:G; rewrite listeners_get_set;
    now destruct (String.eqb e' e).
Qed.

Lemma emit_calls_off e e' cb m :
  emit_calls e' (off e cb m)
  = if String.eqb e' e then set_delete cb (emit_calls e m)
    else emit_calls e' m.
Proof.
  unfold emit_calls, off.
  destruct (listeners_get e m) as [s|] eqn:G.
  - rewrite listeners_get_set. now destruct (String.eqb e' e).
  - destruct (String.eqb e' e) eqn:E; [|reflexivity].
    apply String.eqb_eq in E. subst e'. now rewrite G.
Qed.

(** X21: After any series of [on] and [off] calls, registering a callback
    makes [emit] call it exactly once for that event, however often it
    was registered before; registering it again changes nothing, and the
    listeners of the other events are not touched. *)
Theorem on_registers_once ops event callback :
  let m := listeners_after ops in
  count_occ Nat.eq_dec (emit_calls event (on event callback m)) callback
  = 1%nat
  /\ on event callback (on event callback m) = on event callback m
  /\ forall event', event' <> event ->
       emit_calls event' (on event callback m) = emit_calls event' m.
Proof.
  intro m. split; [|split].
  - rewrite emit_calls_on, String.eqb_refl.
    apply NoDup_count_occ'; [|apply set_add_In].
    apply set_add_NoDup. unfold emit_calls.
    destruct (listeners_get event m) as [s|] eqn:G; [|constructor].
    apply (listeners_after_nodup ops event s G).
  - unfold on at 1.
    assert (G : listeners_get event (on event callback m)
                = Some (set_add callback (emit_calls event m))).
    { unfold on, emit_calls.
      destruct (listeners_get event m); rewrite listeners_get_set;
        now rewrite String.eqb_refl. }
    rewrite G, set_add_idem. now apply listeners_set_same.
  - intros event' Hne. rewrite emit_calls_on.
    apply String.eqb_neq in Hne. now rewrite Hne.
Qed.

(** X22: [off] (and the function [on] returns) makes [emit] skip the
    callback for that event and leaves the other events alone; called
    right after [on] for a callback that was not registered, it gives
    back the listeners [emit] called before. *)
Theorem off_unregisters event callback (m : Listeners) :
  ~ In callback (emit_calls event (off event callback m))
  /\ (forall event', event' <> event ->
        emit_calls event' (off event callback m) = emit_calls event' m)
  /\ (~ In callback (emit_calls event m) ->
      forall event',
        emit_calls event' (off event callback (on event callback m))
        = emit_calls event' m).
Proof.
  split; [|split].
  - rewrite emit_calls_off, String.eqb_refl. apply set_delete_not_In.
  - intros event' Hne. rewrite emit_calls_off.
    apply String.eqb_neq in Hne. now rewrite Hne.
  - intros Hn event'. rewrite emit_calls_off, !emit_calls_on.
    rewrite String.eqb_refl.
    destruct (String.eqb event' event) eqn:E; [|reflexivity].
    apply String.eqb_eq in E. subst event'. now apply set_delete_add.
Qed.

Lemma off_unregisters_witness :
  let m := listeners_after [OpOn "progress" 1; OpOn "failed" 2] in
  emit_calls "progress" (off "progress" 3 (on "progress" 3 m))
  = emit_calls "progress" m.
Proof.
  intro m.
  apply (proj2 (proj2 (off_unregisters "progress" 3 m))).
  vm_compute. intros [H|[]]. discriminate.
Defined.

(** ** Outgoing messages *)

Lemma fold_commands_disconnected cmds sock :
  connected sock = false -> fold_left run_command cmds sock = sock.
Proof.
  intros H. induction cmds as [|c cmds IH]; [reflexivity|].
  cbn. assert (E : run_command sock c = sock).
  { destruct c; cbn; unfold startQueue, pauseQueue, resumeQueue,
      cancelQueue, cancelTask, emitEvent; now rewrite H. }
  now rewrite E.
Qed.

Lemma run_command_connected c old :
  run_command {| connected := true; sent := old |} c
  = {| connected := true; sent := (old ++ [wire c])%list |}.
Proof. now destruct c. Qed.

(** X23: The queue commands are put on the wire in call order while the
    socket is connected; on a socket that is not connected they are
    dropped: nothing is sent and nothing is kept for later. *)
Theorem commands_sent_or_dropped cmds sock :
  fold_left run_command cmds sock
  = if connected sock
    then {| connected := true;
            sent := (sent sock ++ map wire cmds)%list |}
    else sock.
Proof.
  destruct sock as [[|] old]; cbn [connected sent].
  - revert old. induction cmds as [|c cmds IH]; intros old; cbn.
    + now rewrite app_nil_r.
    + rewrite run_command_connected, IH, <- app_assoc. reflexivity.
  - now apply fold_commands_disconnected.
Qed.

Lemma fold_join_connected ts old :
  fold_left
    (fun sk task =>
       match VideoTask.status task with
       | processing =>
           emitEvent "join_task" (JoinTask (VideoTask.id task)) sk
       | _ => sk
       end) ts {| connected := true; sent := old |}
  = {| connected := true;
       sent := (old ++ map (fun t => ("join_task", JoinTask (VideoTask.id t)))
                         (filter (fun t => status_eqb (VideoTask.status t)
                                                      processing) ts))%list |}.
Proof.
  revert old. induction ts as [|t ts IH]; intros old; cbn.
  - now rewrite app_nil_r.
  - destruct (VideoTask.status t); cbn; rewrite IH; try reflexivity.
    now rewrite <- app_assoc.
Qed.

Lemma fold_join_disconnected ts sock :
  connected sock = false ->
  fold_left
    (fun sk task =>
       match VideoTask.status task with
       | processing =>
           emitEvent "join_task" (JoinTask (VideoTask.id task)) sk
       | _ => sk
       end) ts sock
  = sock.
Proof.
  intros H. induction ts as [|t ts IH]; [reflexivity|]. cbn.
  destruct (VideoTask.status t); try exact IH.
  unfold emitEvent. rewrite H. exact IH.
Qed.

(** X24: The connection listener works on the task list of the render
    that registered it, not on the store at the time of the event: when
    the connection comes up, one [join_task] message goes out for each
    task that was processing when [App] mounted, in order, and nothing
    for a task added or started since; nothing goes out on another
    status, nor while the socket is not connected.  [App] mounts on the
    initial store, which has no tasks: then no [join_task] goes out at
    all, whatever the store holds when the connection comes up. *)
Theorem on_connection_rejoins :
  (forall mounted current status sock,
      connection_listener mounted current status sock
      = (String.eqb status "connected",
         if String.eqb status "connected" && connected sock
         then {| connected := true;
                 sent := (sent sock
                          ++ map (fun t => ("join_task",
                                            JoinTask (VideoTask.id t)))
                                 (filter (fun t => status_eqb
                                                     (VideoTask.status t)
                                                     processing)
                                         (tasks mounted)))%list |}
         else sock))
  /\ (forall current status sock,
         connection_listener initial_state current status sock
         = (String.eqb status "connected", sock)).
Proof.
  split.
  - intros mounted current status sock.
    unfold connection_listener, on_connection.
    destruct (String.eqb status "connected"); [|reflexivity].
    cbn [andb]. f_equal. destruct sock as [[|] old]; cbn [connected sent].
    + apply fold_join_connected.
    + now apply fold_join_disconnected.
  - intros current status sock.
    unfold connection_listener, on_connection. cbn.
    now destruct (String.eqb status "connected").
Qed.

Example reconnect_skips_processing_task :
  let current := sample_state [sample_task "t1" processing 10%Q] in
  snd (connection_listener initial_state current "connected"
         {| connected := true; sent := [] |})
  = {| connected := true; sent := [] |}.
Proof. reflexivity. Qed.

(** ** More on file sizes *)

(** X25: Below one kibibyte both copies print the whole number of bytes. *)
Theorem formatFileSize_bytes n :
  0 <= n < 1024 ->
  StoreHelpers.formatFileSize (inject_Z n) = toString n ++ " B"
  /\ ExportUtils.formatFileSize (inject_Z n) = toString n ++ " B".
Proof.
  intros Hn.
  assert (H : forallb
                (fun k =>
                   String.eqb (StoreHelpers.formatFileSize
                                 (inject_Z (Z.of_nat k)))
                              (toString (Z.of_nat k) ++ " B")
                   && String.eqb (ExportUtils.formatFileSize
                                    (inject_Z (Z.of_nat k)))
                                 (toString (Z.of_nat k) ++ " B"))
                (seq 0 1024) = true) by (vm_compute; reflexivity).
  rewrite forallb_forall in H. specialize (H (Z.to_nat n)).
  rewrite Z2Nat.id in H by lia.
  assert (Hin : In (Z.to_nat n) (seq 0 1024)) by (apply in_seq; lia).
  apply H in Hin. apply andb_true_iff in Hin as [H1 H2].
  split; now apply String.eqb_eq.
Qed.

Lemma formatFileSize_bytes_witness :
  ExportUtils.formatFileSize (inject_Z 512) = toString 512 ++ " B".
Proof. apply (proj2 (formatFileSize_bytes 512 ltac:(lia))). Defined.

Example formatFileSize_rounds_to_1024 :
  ExportUtils.formatFileSize 1048575%Q = "1024 KB".
Proof. vm_compute. reflexivity. Qed.

(** ** Export modes on untranslated entries *)

Lemma map_index_ext_in {A B : Type} (f g : A -> nat -> B) from l :
  (forall a i, In a l -> f a i = g a i) ->
  map_index f from l = map_index g from l.
Proof.
  revert from. induction l as [|a l IH]; intros from H; cbn; [reflexivity|].
  rewrite (H a from (or_introl eq_refl)). f_equal. apply IH.
  intros b i Hb. apply H. now right.
Qed.

(** X27: When no entry has a (non-empty) [originalText], the original, the
    translated and the bilingual export are the same text. *)
Theorem export_modes_agree_without_original subtitles :
  Forall (fun sub => truthy (SubtitleEntry.originalText sub) = false)
         subtitles ->
  generateSrtContent subtitles original
  = generateSrtContent subtitles translated
  /\ generateSrtContent subtitles bilingual
     = generateSrtContent subtitles translated.
Proof.
  intros H. rewrite Forall_forall in H.
  unfold generateSrtContent.
  split; f_equal; apply map_index_ext_in; intros sub i Hin;
    specialize (H sub Hin); unfold srt_cue; cbv zeta.
  - assert (E : cue_content original sub = cue_content translated sub)
      by (cbn; now apply or_else_falsy).
    now rewrite E.
  - assert (E : cue_content bilingual sub = cue_content translated sub).
    { rewrite cue_content_bilingual.
      now destruct (SubtitleEntry.originalText sub) as [[|c r]|]. }
    now rewrite E.
Qed.

Lemma export_modes_agree_without_original_witness :
  let subs := [sample_entry 1 (1 # 2)%Q 2%Q "hi" None;
               sample_entry 2 3%Q 4%Q "there" (Some "")] in
  generateSrtContent subs original = generateSrtContent subs translated.
Proof.
  intro subs.
  apply (proj1 (export_modes_agree_without_original subs
                  ltac:(repeat constructor))).
Defined.
